(** * pacsize: sizes of the installed pacman packages

    A shallow embedding of [pacsize.py] and the proofs of its
    specification.  The program reads the pacman configuration, opens the
    local package database through libalpm, sorts the installed packages
    by installed size and prints either one line per package or the total,
    with raw or humanized sizes.

    Modelling choices:
    - byte counts are [N]: [alpm_pkg_get_isize] is declared [uint64_t], so
      cffi hands the program non-negative Python integers, and their sum is
      a non-negative unbounded integer;
    - a Python [float] is the exact rational value of a finite binary64
      number; every arithmetic operation is the exact operation followed
      by [B64.round], rounding to nearest with ties to even;
    - exceptions are values of [exn]; a computation is a pair of the lines
      printed so far and either the exception that ended it or its result;
    - what lies outside the repository (the configuration file and the
      grammar of [configparser], libalpm, the UTF-8 decoder) is a field of
      the record [world]. *)

From Stdlib Require Import ZArith NArith QArith Qround Qabs Qpower Ascii String.
From Stdlib Require Import Lia Lqa Sorted Permutation.
From stdpp Require Import base strings pretty list gmap.

Local Open Scope Q_scope.

(** ** Exceptions and the output monad *)

Inductive exn : Type :=
  | ParsingError          (* any configparser.Error raised while reading *)
  | NoSectionError
  | NoOptionError
  | InterpolationError
  | AttributeError        (* None.encode() *)
  | UnicodeDecodeError    (* bytes.decode(), and the decoder of a text file *)
  | OverflowError.

(** Lines written to standard output, then the outcome. *)
Definition M (A : Type) : Type := (list string * (exn + A))%type.

Definition raise {A : Type} (e : exn) : M A := ([], inl e).

Definition print (line : string) : M unit := ([line], inr tt).

#[export] Instance M_ret : MRet M := λ A a, ([], inr a).

#[export] Instance M_bind : MBind M := λ A B k m,
  match m with
  | (out, inl e) => (out, inl e)
  | (out, inr a) => let '(out', r) := k a in (out ++ out', r)
  end.

(** [for x in xs: body(x)]: the first exception ends the loop. *)
Fixpoint for_each {A : Type} (xs : list A) (body : A → M unit) : M unit :=
  match xs with
  | [] => mret tt
  | x :: xs' => body x ≫= λ _, for_each xs' body
  end.

Definition stdout {A : Type} (m : M A) : list string := fst m.
Definition outcome {A : Type} (m : M A) : exn + A := snd m.

(** An uncaught exception ends the process with status 1. *)
Definition exit_status {A : Type} (m : M A) : Z :=
  match outcome m with inl _ => 1%Z | inr _ => 0%Z end.

(** ** Binary64 arithmetic on exact values *)

Module B64.

Definition prec : Z := 53.
Definition emin : Z := -1074.   (* exponent of the least subnormal *)
Definition emax : Z := 1024.    (* finite values are below 2^emax *)

Definition pow2 (e : Z) : Q := 2 ^ e.

(** Nearest integer, ties to the even one. *)
Definition round_half_even (x : Q) : Z :=
  let f := Qfloor x in
  match Qcompare (x - inject_Z f) (1 # 2) with
  | Lt => f
  | Gt => (f + 1)%Z
  | Eq => if Z.even f then f else (f + 1)%Z
  end.

(** [floor (log2 x)] for [0 < x]. *)
Definition ilog2 (x : Q) : Z :=
  let k := (Z.log2 (Qnum x) - Z.log2 (Z.pos (Qden x)))%Z in
  if Qle_bool (pow2 k) x then k else (k - 1)%Z.

(** The exponent of the unit in the last place of [x]. *)
Definition ulp_exp (x : Q) : Z := Z.max (ilog2 x - (prec - 1)) emin.

Definition round_pos (x : Q) : Q :=
  let q := ulp_exp x in
  inject_Z (round_half_even (x / pow2 q)) * pow2 q.

(** The binary64 number nearest to [x] (exponent unbounded above). *)
Definition round (x : Q) : Q :=
  match Qcompare x 0 with
  | Eq => 0
  | Gt => round_pos x
  | Lt => - round_pos (- x)
  end.

Definition finite (x : Q) : bool := negb (Qle_bool (pow2 emax) (Qabs x)).

End B64.

(** ** Python numbers

    The program's numbers are never negative: a [float] is a finite
    non-negative binary64 value, given by its exact rational value, or
    positive infinity. *)

Inductive float : Type :=
  | Fin (x : Q)
  | Inf.

(** The float nearest to the exact result [x] of an operation; a float
    operation that exceeds the range gives infinity. *)
Definition to_float (x : Q) : float :=
  let r := B64.round x in
  if B64.finite r then Fin r else Inf.

(** A number is an [int] or a [float]. *)
Inductive num : Type :=
  | Int (n : N)
  | Float (x : float).

(** [a / b] for a positive int [b] that is itself a float ([1024]):
    int / int is the correctly rounded quotient and raises OverflowError
    when that is too large for a float; float / int is the float
    division. *)
Definition truediv (a : num) (b : positive) : M float :=
  match a with
  | Int n =>
      let r := B64.round (inject_Z (Z.of_N n) / inject_Z (Z.pos b)) in
      if B64.finite r then mret (Fin r) else raise OverflowError
  | Float (Fin x) => mret (to_float (x / inject_Z (Z.pos b)))
  | Float Inf => mret Inf
  end.

(** [x * b] for a float [x] and a positive int [b] that is itself a float. *)
Definition fmul (x : float) (b : positive) : float :=
  match x with
  | Fin x => to_float (x * inject_Z (Z.pos b))
  | Inf => Inf
  end.

(** [x < 1] *)
Definition lt_one (x : float) : bool :=
  match x with
  | Fin x => negb (Qle_bool 1 x)
  | Inf => false
  end.

(** [str(n)] for an int. *)
Definition str (n : N) : string := pretty n.

Definition two_digits (n : Z) : string :=
  if (n <? 10)%Z then "0" +:+ pretty n else pretty n.

(** [f"{x:.02f}"]: the exact value of [x] correctly rounded to two
    decimals, ties to even. *)
Definition format_02f (x : float) : string :=
  match x with
  | Fin x =>
      let h := B64.round_half_even (Qabs x * 100) in
      (if Qlt_le_dec x 0 then "-" else "")
        +:+ pretty (h / 100)%Z +:+ "." +:+ two_digits (h mod 100)%Z
  | Inf => "inf"
  end.

(** ** bytes_humanize *)

Definition prefixes : list string := ["B"; "KiB"; "MiB"; "GiB"; "TiB"].

(** The [for] loop of [bytes_humanize], entered with the first [prefix]
    and the [rest] of the list: it returns [size] and [prefix] as the loop
    leaves them, at the [break] or at the end of the list. *)
Fixpoint scale_down (prefix : string) (rest : list string) (size : num)
    : M (float * string) :=
  size ← truediv size 1024;
  if lt_one size then mret (size, prefix)
  else
    match rest with
    | [] => mret (size, prefix)
    | prefix :: rest => scale_down prefix rest (Float size)
    end.

Definition bytes_humanize (size : N) : M string :=
  '(size, prefix) ← scale_down "B" ["KiB"; "MiB"; "GiB"; "TiB"] (Int size);
  let size := fmul size 1024 in
  mret (format_02f size +:+ prefix).

(** ** Packages and sorting *)

Record Package : Type := { name : string; size : N }.

(** [l.sort(key=key)]: ascending by key, stable, comparing keys with [<]
    only.  Python fixes the result, not the algorithm; this is the
    insertion sort that yields it. *)
Fixpoint insert_by_key {A : Type} (key : A → N) (x : A) (l : list A) : list A :=
  match l with
  | [] => [x]
  | y :: l' =>
      if (key y <? key x)%N then y :: insert_by_key key x l' else x :: y :: l'
  end.

Definition list_sort {A : Type} (key : A → N) (l : list A) : list A :=
  foldr (insert_by_key key) [] l.

(** [sum(ns)] *)
Definition sum (ns : list N) : N := foldl N.add 0%N ns.

(** ** The world outside the program *)

(** A C pointer; [NULL] is 0. *)
Definition ptr : Type := N.
Definition NULL : ptr := 0%N.

(** A parsed configuration file: its sections in order, each with its
    options as [configparser] stores them (names after [optionxform],
    [None] for an option without a value). *)
Definition ini : Type := list (string * list (string * option string)).

(** What [config.read] makes of the content of a file that it has opened:
    the sections it holds, an error of the parser, or an error of the
    decoder, which [open] sets up with the encoding of the locale. *)
Inductive reading : Type :=
  | Parsed (source : ini)
  | Rejected       (* a configparser.Error *)
  | Undecodable.   (* UnicodeDecodeError *)

Record world : Type := {
  (** the content of /etc/pacman.conf, [None] when it cannot be opened *)
  pacman_conf : option string;
  (** the decoder of the locale, then the grammar of configparser (strict,
      allow_no_value), on that content *)
  parse_ini : string → reading;
  (** BasicInterpolation on a value that contains a percent sign, given the
      options in scope *)
  interpolate : gmap string (option string) → string → option string;
  (** whether a byte string is valid UTF-8 *)
  utf8_valid : string → bool;
  (** libalpm; a list of packages stands for the NULL-terminated
      [alpm_list_t] chain that holds them *)
  alpm_initialize : string → string → ptr;
  alpm_get_localdb : ptr → ptr;
  alpm_db_search : ptr → list string → list ptr;
  alpm_pkg_get_name : ptr → string;
  alpm_pkg_get_isize : ptr → N;
  alpm_release : ptr → Z
}.

(** ** configparser *)

Record ConfigParser : Type := {
  cp_defaults : gmap string (option string);
  cp_sections : gmap string (gmap string (option string))
}.

Definition lower_ascii (a : ascii) : ascii :=
  let n := nat_of_ascii a in
  if (65 <=? n)%nat && (n <=? 90)%nat then ascii_of_nat (n + 32) else a.

(** [optionxform], that is [str.lower], on ASCII names. *)
Fixpoint lower (s : string) : string :=
  match s with
  | EmptyString => EmptyString
  | String a s' => String (lower_ascii a) (lower s')
  end.

Fixpoint has_percent (s : string) : bool :=
  match s with
  | EmptyString => false
  | String a s' => if decide (a = "%"%char) then true else has_percent s'
  end.

(** Store one option; the section DEFAULT is kept apart. *)
Definition cp_set (c : ConfigParser) (section key : string)
    (value : option string) : ConfigParser :=
  if decide (section = "DEFAULT") then
    {| cp_defaults := <[key := value]> (cp_defaults c);
       cp_sections := cp_sections c |}
  else
    {| cp_defaults := cp_defaults c;
       cp_sections :=
         <[section := <[key := value]> (default ∅ (cp_sections c !! section))]>
           (cp_sections c) |}.

Definition cp_add_section (c : ConfigParser) (section : string) : ConfigParser :=
  if decide (section = "DEFAULT") then c
  else
    {| cp_defaults := cp_defaults c;
       cp_sections :=
         <[section := default ∅ (cp_sections c !! section)]> (cp_sections c) |}.

(** Merge the sections of one source into the parser. *)
Definition cp_update (c : ConfigParser) (source : ini) : ConfigParser :=
  foldl (λ c '(section, options),
           foldl (λ c '(key, value), cp_set c section key value)
                 (cp_add_section c section) options)
        c source.

(** [config.read_dict(d)]: option names go through [optionxform]. *)
Definition read_dict (c : ConfigParser) (d : list (string * list (string * string)))
    : ConfigParser :=
  cp_update c
    (map (λ '(section, options),
            (section, map (λ '(k, v), (lower k, Some v)) options)) d).

(** [config.read(path)]: a file that cannot be opened is skipped (only
    OSError is caught); the errors of the decoder and of the parser are
    not. *)
Definition read (w : world) (c : ConfigParser) : M ConfigParser :=
  match pacman_conf w with
  | None => mret c
  | Some text =>
      match parse_ini w text with
      | Parsed source => mret (cp_update c source)
      | Rejected => raise ParsingError
      | Undecodable => raise UnicodeDecodeError
      end
  end.

(** The options in scope for [section]: its own, then those of DEFAULT. *)
Definition unify_values (c : ConfigParser) (section : string)
    : M (gmap string (option string)) :=
  match cp_sections c !! section with
  | Some sectiondict => mret (sectiondict ∪ cp_defaults c)
  | None =>
      if decide (section = "DEFAULT") then mret (cp_defaults c)
      else raise NoSectionError
  end.

(** [config.get(section, key)]: a value without a percent sign is
    returned as it is stored. *)
Definition get (w : world) (c : ConfigParser) (section key : string)
    : M (option string) :=
  d ← unify_values c section;
  match d !! lower key with
  | None => raise NoOptionError
  | Some None => mret None
  | Some (Some value) =>
      if has_percent value then
        match interpolate w d value with
        | None => raise InterpolationError
        | Some value' => mret (Some value')
        end
      else mret (Some value)
  end.

Definition read_pacman_config (w : world) : M ConfigParser :=
  let config := {| cp_defaults := ∅; cp_sections := ∅ |} in
  let config :=
    read_dict config
      [("options", [("RootDir", "/");
                    ("DBPath", "/var/lib/pacman");
                    ("CacheDir", "/var/cache/pacman/pkg")])] in
  read w config.

(** ** The database session *)

Record ALPM : Type := { handle : ptr; local_db : ptr }.

(** [s.encode()]; a string is kept as its UTF-8 bytes, and [None] has no
    such method. *)
Definition encode (s : option string) : M string :=
  match s with
  | Some s => mret s
  | None => raise AttributeError
  end.

(** [b.decode()] *)
Definition decode (w : world) (b : string) : M string :=
  if utf8_valid w b then mret b else raise UnicodeDecodeError.

(** [ALPM.__init__]: the handle is stored as the library returns it. *)
Definition ALPM_init (w : world) (root_dir db_path : option string) : M ALPM :=
  root ← encode root_dir;
  db ← encode db_path;
  let handle := alpm_initialize w root db in
  let local_db := alpm_get_localdb w handle in
  mret {| handle := handle; local_db := local_db |}.

(** The body of the [while] loop of [search_db], over the chain [res]. *)
Fixpoint collect (w : world) (res : list ptr) (res_array : list Package)
    : M (list Package) :=
  match res with
  | [] => mret res_array
  | pkg :: next =>
      let name := alpm_pkg_get_name w pkg in
      let size := (alpm_pkg_get_isize w pkg mod 2 ^ 64)%N in
      name ← decode w name;
      collect w next (res_array ++ [{| name := name; size := size |}])
  end.

Definition search_db (w : world) (self : ALPM) (name : string)
    : M (list Package) :=
  needle ← encode (Some name);
  collect w (alpm_db_search w (local_db self) [needle]) [].


(** ** main *)

Definition main (w : world) (human_readable show_total : bool) : M unit :=
  config ← read_pacman_config w;
  root_dir ← get w config "options" "RootDir";
  db_path ← get w config "options" "DBPath";
  alpm ← ALPM_init w root_dir db_path;
  packages ← search_db w alpm ".*";
  let packages := list_sort size packages in
  if show_total then
    let s := sum (map size packages) in
    show ← (if human_readable then bytes_humanize s else mret (str s));
    print show
  else
    for_each packages (λ p,
      display_size ← (if human_readable then bytes_humanize (size p)
                      else mret (str (size p)));
      print (name p +:+ " " +:+ display_size)).

(** * Vocabulary of the specification *)

(** ** Segments of [main] *)

(** The packages [main] works on: everything before the sort. *)
Definition installed (w : world) : M (list Package) :=
  config ← read_pacman_config w;
  root_dir ← get w config "options" "RootDir";
  db_path ← get w config "options" "DBPath";
  alpm ← ALPM_init w root_dir db_path;
  search_db w alpm ".*".

(** The text of a size, as both branches of [main] compute it. *)
Definition display (human_readable : bool) (n : N) : M string :=
  if human_readable then bytes_humanize n else mret (str n).

(** One line of the per-package output. *)
Definition package_line (human_readable : bool) (p : Package) : M unit :=
  display_size ← display human_readable (size p);
  print (name p +:+ " " +:+ display_size).

(** The sorted package list that [main] prints, empty when the packages
    could not be read. *)
Definition installed_sorted (w : world) : list Package :=
  match outcome (installed w) with
  | inr packages => list_sort size packages
  | inl _ => []
  end.

(** Nothing is printed before the packages are known. *)
Definition silent {A : Type} (m : M A) : Prop := stdout m = [].

(** Sizes come from a [uint64_t]. *)
Definition uint64_size (p : Package) : Prop := (size p < 2 ^ 64)%N.

(** ** Order *)

Section key_order.
Context {A : Type} (key : A → N).

(** [x] is not after [y] in ascending order of [key]. *)
Definition key_le (x y : A) : Prop := (key x ≤ key y)%N.

End key_order.

(** ** Exact values of the humanizer *)

(** [m * 2^t] with [m] of at most 53 bits. *)
Definition dyadic (x : Q) (t : Z) : Prop :=
  ∃ m : Z, (0 ≤ m < 2 ^ 53)%Z ∧ x == inject_Z m * B64.pow2 t.

(** The loop of [bytes_humanize] on exact values: [x] is [size] after the
    division of the current iteration. *)
Fixpoint scale_exact (prefix : string) (rest : list string) (x : Q) : Q * string :=
  if Qle_bool 1 x then
    match rest with
    | [] => (x, prefix)
    | prefix' :: rest' => scale_exact prefix' rest' (x / inject_Z 1024)
    end
  else (x, prefix).

(** The value of the first division, [size / 1024] on an int. *)
Definition first_quotient (size : N) : Q :=
  B64.round (inject_Z (Z.of_N size) / inject_Z 1024).

(** [size / 1024^k], exactly. *)
Definition scaled (size : N) (k : nat) : Q :=
  inject_Z (Z.of_N size) / inject_Z (1024 ^ Z.of_nat k).



(** ** The configuration *)

(** The value stored for [key] in [section], if any. *)
Definition stored (c : ConfigParser) (section key : string) : option (option string) :=
  cp_sections c !! section ≫= λ options, options !! key.


(** The parser as [read_pacman_config] fills it before reading the file. *)
Definition default_config : ConfigParser :=
  read_dict {| cp_defaults := ∅; cp_sections := ∅ |}
    [("options", [("RootDir", "/");
                  ("DBPath", "/var/lib/pacman");
                  ("CacheDir", "/var/cache/pacman/pkg")])].

(** ** Example systems *)

(** A libalpm over the given installed packages: package pointers are
    positions in the list, counted from 1; initialization returns
    [handle]; every call given a null pointer answers with a null result,
    as libalpm's argument checks do.  The configuration file has the
    content [conf]; it decodes, and [parsed] is what the parser makes of
    it, [None] when it rejects it. *)
Definition system (conf : option string) (parsed : option ini) (handle : ptr)
    (pkgs : list (string * N)) : world :=
  {| pacman_conf := conf;
     parse_ini := λ _,
       match parsed with Some source => Parsed source | None => Rejected end;
     interpolate := λ _ value, Some value;
     utf8_valid := λ _, true;
     alpm_initialize := λ _ _, handle;
     alpm_get_localdb := λ h, if decide (h = NULL) then NULL else 1%N;
     alpm_db_search := λ db _,
       if decide (db = NULL) then []
       else map (λ i, N.of_nat (S i)) (seq 0 (length pkgs));
     alpm_pkg_get_name := λ p, default "" (fst <$> pkgs !! pred (N.to_nat p));
     alpm_pkg_get_isize := λ p, default 0%N (snd <$> pkgs !! pred (N.to_nat p));
     alpm_release := λ h, if decide (h = NULL) then (-1)%Z else 0%Z |}.

(** Four packages, no configuration file. *)
Definition example_system : world :=
  system None None 1%N
    [("glibc", 50000000%N); ("bash", 1536%N); ("zlib", 1536%N); ("vim", 0%N)].

(** Its packages as [search_db] returns them. *)
Definition example_packages : list Package :=
  [{| name := "glibc"; size := 50000000 |}; {| name := "bash"; size := 1536 |};
   {| name := "zlib"; size := 1536 |}; {| name := "vim"; size := 0 |}].

(** Nothing installed. *)
Definition empty_system : world := system None None 1%N [].

(** The same four packages, but [alpm_initialize] fails: it returns a null
    handle. *)
Definition unopened_system : world :=
  system None None NULL
    [("glibc", 50000000%N); ("bash", 1536%N); ("zlib", 1536%N); ("vim", 0%N)].





(** * Further vocabulary *)

(** ** The search *)

(** The record that [search_db] appends for the package at [pkg]. *)
Definition package_of (w : world) (pkg : ptr) : Package :=
  {| name := alpm_pkg_get_name w pkg;
     size := (alpm_pkg_get_isize w pkg mod 2 ^ 64)%N |}.

(** The name of the package at [pkg] is valid UTF-8. *)
Definition decodable (w : world) (pkg : ptr) : Prop :=
  utf8_valid w (alpm_pkg_get_name w pkg) = true.

(** The chain that [search_db] walks. *)
Definition found (w : world) (self : ALPM) (name : string) : list ptr :=
  alpm_db_search w (local_db self) [name].

(** The text that [bytes_humanize] returns for [n], empty when it raises. *)
Definition humanized (n : N) : string :=
  match outcome (bytes_humanize n) with
  | inr text => text
  | inl _ => ""
  end.

(** ** Assignments of a configuration source *)

(** [new] where it is set, [old] elsewhere. *)
Definition overridden {A : Type} (new old : option A) : option A :=
  match new with Some a => Some a | None => old end.

(** The value of [key] after the assignments of [options], read in order,
    starting from [acc]. *)
Definition assign_options (key : string) (options : list (string * option string))
    (acc : option (option string)) : option (option string) :=
  foldl (λ acc '(k, v), if decide (k = key) then Some v else acc) acc options.

(** The value of [key] after the sections of [source] named [section],
    read in order, starting from [acc]. *)
Definition assign_sections (section key : string) (source : ini)
    (acc : option (option string)) : option (option string) :=
  foldl (λ acc '(s, options),
           if decide (s = section) then assign_options key options acc else acc)
        acc source.

(** The last value that [source] gives [key] in [section], if any. *)
Definition assigned (source : ini) (section key : string) : option (option string) :=
  assign_sections section key source None.

(** ** More example systems *)

(** [w] with another UTF-8 decoder. *)
Definition with_decoder (w : world) (valid : string → bool) : world :=
  {| pacman_conf := pacman_conf w;
     parse_ini := parse_ini w;
     interpolate := interpolate w;
     utf8_valid := valid;
     alpm_initialize := alpm_initialize w;
     alpm_get_localdb := alpm_get_localdb w;
     alpm_db_search := alpm_db_search w;
     alpm_pkg_get_name := alpm_pkg_get_name w;
     alpm_pkg_get_isize := alpm_pkg_get_isize w;
     alpm_release := alpm_release w |}.

(** The session that [ALPM_init] opens on the example systems. *)
Definition example_session : ALPM := {| handle := 1%N; local_db := 1%N |}.

(** Byte strings of ASCII characters only: all of them are valid UTF-8,
    and a string with the byte 255 is not. *)
Definition ascii_only (b : string) : bool :=
  forallb (λ a, (nat_of_ascii a <? 128)%nat) (list_ascii_of_string b).

(** Three packages; the name of the second holds the byte 255. *)
Definition garbled_system : world :=
  with_decoder
    (system None None 1%N
       [("glibc", 50000000%N); (String "255" "bash", 1536%N); ("vim", 0%N)])
    ascii_only.

(** A configuration file whose [options] section has a [RootDir] line
    without a value and sets [DBPath]. *)
Definition valueless_system : world :=
  system
    (Some "[options]
RootDir
DBPath = /mnt/db")
    (Some [("options", [("rootdir", None); ("dbpath", Some "/mnt/db")])])
    1%N [("vim", 0%N)].

(** The packages of [example_system], found in the opposite order. *)
Definition reordered_system : world :=
  system None None 1%N
    [("vim", 0%N); ("zlib", 1536%N); ("bash", 1536%N); ("glibc", 50000000%N)].

(** The chain that [main] walks when there is no configuration file. *)
Definition default_chain (w : world) : list ptr :=
  alpm_db_search w
    (alpm_get_localdb w (alpm_initialize w "/" "/var/lib/pacman")) [".*"].

(** * Proofs *)

(** ** The monad *)

Lemma bind_ret {A B : Type} (a : A) (k : A → M B) : (mret a ≫= k) = k a.
Proof. unfold mbind, mret, M_bind, M_ret. by destruct (k a). Qed.

Lemma bind_raise {A B : Type} (e : exn) (k : A → M B) : (raise e ≫= k) = raise e.
Proof. reflexivity. Qed.

Lemma bind_print {B : Type} (line : string) (k : unit → M B) :
  (print line ≫= k) = (line :: stdout (k tt), outcome (k tt)).
Proof. unfold mbind, M_bind, print, stdout, outcome. by destruct (k tt). Qed.

(** ** Sorting *)

Section sorting.
Context {A : Type} (key : A → N).

Lemma insert_by_key_perm x l : insert_by_key key x l ≡ₚ x :: l.
Proof.
  induction l as [|y l IH]; simpl; [done|].
  destruct (key y <? key x)%N; [|done].
  rewrite IH. apply Permutation_swap.
Qed.

Lemma list_sort_perm l : list_sort key l ≡ₚ l.
Proof.
  induction l as [|x l IH]; simpl; [done|].
  by rewrite insert_by_key_perm, IH.
Qed.

Lemma insert_by_key_hd x l :
  HdRel (key_le key) x l → insert_by_key key x l = x :: l.
Proof.
  destruct 1 as [|y l Hxy]; simpl; [done|].
  unfold key_le in Hxy.
  destruct (N.ltb_spec (key y) (key x)); [lia|done].
Qed.

Lemma insert_by_key_sorted x l :
  Sorted (key_le key) l → Sorted (key_le key) (insert_by_key key x l).
Proof.
  induction 1 as [|y l Hl IH Hhd]; simpl.
  - repeat constructor.
  - destruct (N.ltb_spec (key y) (key x)) as [Hlt|Hge].
    + constructor; [done|].
      destruct Hhd as [|z l Hyz]; simpl.
      * constructor. unfold key_le. lia.
      * destruct (N.ltb_spec (key z) (key x)); constructor; unfold key_le in *; lia.
    + constructor; [by constructor|]. by constructor.
Qed.

Lemma list_sort_sorted l : Sorted (key_le key) (list_sort key l).
Proof.
  induction l as [|x l IH]; simpl; [constructor|].
  by apply insert_by_key_sorted.
Qed.

(** Inserting [x] passes only over elements with a smaller key. *)
Lemma filter_insert_by_key (P : A → Prop) `{!∀ x, Decision (P x)} x l :
  (∀ y, key y ≠ key x → P x → ¬ P y) →
  filter P (insert_by_key key x l) = filter P (x :: l).
Proof.
  intros HP. induction l as [|y l IH]; simpl; [done|].
  destruct (N.ltb_spec (key y) (key x)) as [Hlt|Hge]; [|done].
  rewrite (filter_cons _ y), IH, !filter_cons.
  destruct (decide (P x)) as [Hx|Hx]; [|done].
  destruct (decide (P y)) as [Hy|Hy]; [|done].
  exfalso. by apply (HP y); [lia|..].
Qed.

Lemma list_sort_stable (k : N) l :
  filter (λ x, key x = k) (list_sort key l) = filter (λ x, key x = k) l.
Proof.
  induction l as [|x l IH]; simpl; [done|].
  rewrite filter_insert_by_key by (intros y ? <-; done).
  by rewrite !filter_cons, IH.
Qed.

Lemma Sorted_lookup_succ (l : list A) i x y :
  Sorted (key_le key) l → l !! i = Some x → l !! S i = Some y → (key_le key) x y.
Proof.
  intros Hl. revert i. induction Hl as [|z l Hl IH Hhd]; intros i; [done|].
  destruct i as [|i]; simpl.
  - intros [= ->] Hy. destruct Hhd as [|z' l' Hzz']; [done|].
    simpl in Hy. by injection Hy as ->.
  - apply IH.
Qed.
End sorting.

(** C2: after [packages.sort(key=lambda p: p.size)] every package is at
    most as large as the one that follows it. *)
Theorem sort_nondecreasing (packages : list Package) (i : nat) (p q : Package) :
  list_sort size packages !! i = Some p →
  list_sort size packages !! S i = Some q →
  (size p ≤ size q)%N.
Proof.
  intros Hp Hq.
  exact (Sorted_lookup_succ size _ i p q (list_sort_sorted size packages) Hp Hq).
Qed.

Lemma sort_nondecreasing_witness :
  list_sort size example_packages !! 2%nat = Some {| name := "zlib"; size := 1536 |} ∧
  list_sort size example_packages !! 3%nat = Some {| name := "glibc"; size := 50000000 |} ∧
  (1536 ≤ 50000000)%N.
Proof.
  assert (list_sort size example_packages !! 2%nat
          = Some {| name := "zlib"; size := 1536 |}) as Hp by (vm_compute; reflexivity).
  assert (list_sort size example_packages !! 3%nat
          = Some {| name := "glibc"; size := 50000000 |}) as Hq by (vm_compute; reflexivity).
  split; [exact Hp|]. split; [exact Hq|].
  exact (sort_nondecreasing example_packages 2 _ _ Hp Hq).
Defined.

(** C8: the sorted list holds the same records as the input, and the
    records of any one size keep their input order. *)
Theorem sort_stable_permutation (packages : list Package) :
  list_sort size packages ≡ₚ packages ∧
  ∀ k : N, filter (λ p, size p = k) (list_sort size packages)
           = filter (λ p, size p = k) packages.
Proof.
  split; [apply list_sort_perm|].
  intros k. apply list_sort_stable.
Qed.

(** ** Binary64 rounding *)

Import B64.

#[export] Instance round_half_even_proper : Proper (Qeq ==> eq) round_half_even.
Proof.
  intros x y Hxy. unfold round_half_even.
  rewrite (Qfloor_comp _ _ Hxy).
  assert (x - inject_Z (Qfloor y) == y - inject_Z (Qfloor y)) as -> by (rewrite Hxy; reflexivity).
  reflexivity.
Qed.

Lemma round_half_even_Z (z : Z) : round_half_even (inject_Z z) = z.
Proof.
  unfold round_half_even. rewrite Qfloor_Z.
  assert (inject_Z z - inject_Z z == 0) as -> by ring.
  reflexivity.
Qed.

Lemma round_half_even_bounds (x : Q) :
  (Qfloor x ≤ round_half_even x ≤ Qfloor x + 1)%Z.
Proof.
  unfold round_half_even.
  destruct (Qcompare _ _); [destruct (Z.even _)|..]; lia.
Qed.

Lemma round_half_even_le (x : Q) (z : Z) :
  x <= inject_Z z → (round_half_even x ≤ z)%Z.
Proof.
  intros Hx.
  assert (Qfloor x ≤ z)%Z as Hf.
  { rewrite <- (Qfloor_Z z). by apply Qfloor_resp_le. }
  destruct (decide (Qfloor x = z)) as [Heq|Hne].
  - unfold round_half_even. rewrite Heq.
    assert (x - inject_Z z < 1 # 2) as Hlt by lra.
    by rewrite (proj1 (Qlt_alt _ _) Hlt).
  - pose proof (round_half_even_bounds x). lia.
Qed.

Lemma round_half_even_ge (x : Q) (z : Z) :
  inject_Z z <= x → (z ≤ round_half_even x)%Z.
Proof.
  intros Hx.
  assert (z ≤ Qfloor x)%Z as Hf.
  { rewrite <- (Qfloor_Z z). by apply Qfloor_resp_le. }
  pose proof (round_half_even_bounds x). lia.
Qed.

Lemma round_half_even_lt_half (x : Q) (z : Z) :
  x < inject_Z z - (1 # 2) → (round_half_even x ≤ z - 1)%Z.
Proof.
  intros Hx.
  assert (Qfloor x ≤ z - 1)%Z as Hf.
  { pose proof (Qfloor_le x) as Hfl.
    assert (inject_Z (Qfloor x) < inject_Z z) as Hlt by lra.
    rewrite <- Zlt_Qlt in Hlt. lia. }
  destruct (decide (Qfloor x = z - 1)%Z) as [Heq|Hne].
  - unfold round_half_even. rewrite Heq.
    assert (x - inject_Z (z - 1) < 1 # 2) as Hlt.
    { assert (inject_Z (z - 1) == inject_Z z - 1) as -> by (unfold Qeq; simpl; lia). lra. }
    by rewrite (proj1 (Qlt_alt _ _) Hlt).
  - pose proof (round_half_even_bounds x). lia.
Qed.

Lemma pow2_pos (e : Z) : 0 < pow2 e.
Proof. apply Qpower_0_lt. reflexivity. Qed.

Lemma pow2_add (a b : Z) : pow2 (a + b) == pow2 a * pow2 b.
Proof. apply Qpower_plus. discriminate. Qed.

Lemma pow2_sub (a b : Z) : pow2 (a - b) == pow2 a / pow2 b.
Proof. apply Qpower_minus. discriminate. Qed.

Lemma pow2_Z (e : Z) : (0 ≤ e)%Z → pow2 e == inject_Z (2 ^ e).
Proof. intros He. unfold pow2. by rewrite Zpower_Qpower. Qed.

Lemma pow2_le (a b : Z) : (a ≤ b)%Z → pow2 a <= pow2 b.
Proof. intros. by apply Qpower_le_compat_l. Qed.

Lemma pow2_lt (a b : Z) : (a < b)%Z → pow2 a < pow2 b.
Proof. intros. by apply Qpower_lt_compat_l. Qed.

Lemma pow2_lt_inv (a b : Z) : pow2 a < pow2 b → (a < b)%Z.
Proof. intros H. by apply (Qpower_lt_compat_l_inv 2). Qed.

Lemma pow2_le_inv (a b : Z) : pow2 a <= pow2 b → (a ≤ b)%Z.
Proof. intros H. by apply (Qpower_le_compat_l_inv 2). Qed.

(** Scaling by a power of two and back. *)
Lemma pow2_div_mul (x : Q) (e : Z) : x / pow2 e * pow2 e == x.
Proof. pose proof (pow2_pos e). field. lra. Qed.

Lemma ilog2_spec (x : Q) :
  0 < x → pow2 (ilog2 x) <= x ∧ x < pow2 (ilog2 x + 1).
Proof.
  intros Hx. destruct x as [n d].
  assert (0 < n)%Z as Hn by (unfold Qlt in Hx; simpl in Hx; lia).
  unfold ilog2; simpl Qnum; simpl Qden.
  set (ln := Z.log2 n). set (ld := Z.log2 (Z.pos d)).
  destruct (Z.log2_spec n Hn) as [Hn1 Hn2].
  destruct (Z.log2_spec (Z.pos d) eq_refl) as [Hd1 Hd2].
  fold ln in Hn1, Hn2. fold ld in Hd1, Hd2.
  assert (0 ≤ ln)%Z as Hln by apply Z.log2_nonneg.
  assert (0 ≤ ld)%Z as Hld by apply Z.log2_nonneg.
  assert (n # d == inject_Z n / inject_Z (Z.pos d)) as Hq by apply Qmake_Qdiv.
  assert (0 < inject_Z (Z.pos d)) as Hdpos by (rewrite <- (Zlt_Qlt 0); lia).
  assert (pow2 ln <= inject_Z n) as Hn1'.
  { rewrite pow2_Z by done. by rewrite <- Zle_Qle. }
  assert (inject_Z n < pow2 (ln + 1)) as Hn2'.
  { rewrite pow2_Z by lia. rewrite <- Zlt_Qlt. by rewrite <- Z.add_1_r in Hn2. }
  assert (pow2 ld <= inject_Z (Z.pos d)) as Hd1'.
  { rewrite pow2_Z by done. by rewrite <- Zle_Qle. }
  assert (inject_Z (Z.pos d) < pow2 (ld + 1)) as Hd2'.
  { rewrite pow2_Z by lia. rewrite <- Zlt_Qlt. by rewrite <- Z.add_1_r in Hd2. }
  pose proof (pow2_pos ld) as Hpld. pose proof (pow2_pos (ld + 1)) as Hpld1.
  assert (n # d < pow2 (ln - ld + 1)) as Hup.
  { replace (ln - ld + 1)%Z with (ln + 1 - ld)%Z by lia.
    rewrite pow2_sub, Hq.
    apply Qlt_shift_div_l; [done|].
    apply Qle_lt_trans with (inject_Z n / inject_Z (Z.pos d) * inject_Z (Z.pos d)).
    - apply Qmult_le_l.
      + apply Qlt_shift_div_l; [done|]. rewrite Qmult_0_l.
        rewrite <- (Zlt_Qlt 0). done.
      + done.
    - assert (inject_Z n / inject_Z (Z.pos d) * inject_Z (Z.pos d) == inject_Z n) as ->
        by (field; lra).
      done. }
  assert (pow2 (ln - ld - 1) <= n # d) as Hlow.
  { replace (ln - ld - 1)%Z with (ln - (ld + 1))%Z by lia.
    rewrite pow2_sub, Hq.
    apply Qle_shift_div_r; [done|].
    apply Qle_trans with (inject_Z n / inject_Z (Z.pos d) * inject_Z (Z.pos d)).
    - assert (inject_Z n / inject_Z (Z.pos d) * inject_Z (Z.pos d) == inject_Z n) as ->
        by (field; lra).
      done.
    - apply Qmult_le_l.
      + apply Qlt_shift_div_l; [done|]. rewrite Qmult_0_l.
        rewrite <- (Zlt_Qlt 0). done.
      + lra. }
  destruct (Qle_bool (pow2 (ln - ld)) (n # d)) eqn:Hb.
  - apply Qle_bool_iff in Hb. done.
  - split; [done|].
    replace (ln - ld - 1 + 1)%Z with (ln - ld)%Z by lia.
    apply Qnot_le_lt. intros Hle. apply Qle_bool_iff in Hle. congruence.
Qed.

Lemma ilog2_unique (x : Q) (e : Z) :
  pow2 e <= x → x < pow2 (e + 1) → ilog2 x = e.
Proof.
  intros H1 H2.
  assert (0 < x) as Hx by (pose proof (pow2_pos e); lra).
  destruct (ilog2_spec x Hx) as [H3 H4].
  assert (pow2 e < pow2 (ilog2 x + 1)) as Ha by lra.
  assert (pow2 (ilog2 x) < pow2 (e + 1)) as Hb by lra.
  apply pow2_lt_inv in Ha, Hb. lia.
Qed.

Lemma ilog2_proper (x y : Q) : 0 < x → x == y → ilog2 x = ilog2 y.
Proof.
  intros Hx Hxy. symmetry. destruct (ilog2_spec x Hx) as [H1 H2].
  apply ilog2_unique; by rewrite <- Hxy.
Qed.

Lemma ilog2_scale (x : Q) (j : Z) : 0 < x → ilog2 (x * pow2 j) = (ilog2 x + j)%Z.
Proof.
  intros Hx. destruct (ilog2_spec x Hx) as [H1 H2].
  pose proof (pow2_pos j) as Hj.
  apply ilog2_unique.
  - rewrite pow2_add. by apply Qmult_le_compat_r; [|lra].
  - replace (ilog2 x + j + 1)%Z with (ilog2 x + 1 + j)%Z by lia.
    rewrite pow2_add. by apply Qmult_lt_compat_r.
Qed.

Lemma ilog2_ge (x : Q) (e : Z) : pow2 e <= x → (e ≤ ilog2 x)%Z.
Proof.
  intros He.
  assert (0 < x) as Hx by (pose proof (pow2_pos e); lra).
  destruct (ilog2_spec x Hx) as [_ H2].
  assert (pow2 e < pow2 (ilog2 x + 1)) as H by lra.
  apply pow2_lt_inv in H. lia.
Qed.

Lemma ilog2_lt (x : Q) (e : Z) : 0 < x → x < pow2 e → (ilog2 x < e)%Z.
Proof.
  intros Hx He. destruct (ilog2_spec x Hx) as [H1 _].
  assert (pow2 (ilog2 x) < pow2 e) as H by lra.
  by apply pow2_lt_inv in H.
Qed.

Lemma round_pos_proper (x y : Q) : 0 < x → x == y → round_pos x == round_pos y.
Proof.
  intros Hx Hxy. unfold round_pos, ulp_exp.
  rewrite (ilog2_proper x y Hx Hxy).
  assert (x / pow2 (Z.max (ilog2 y - (prec - 1)) emin)
          == y / pow2 (Z.max (ilog2 y - (prec - 1)) emin)) as -> by (by rewrite Hxy).
  reflexivity.
Qed.

Lemma round_proper (x y : Q) : x == y → round x == round y.
Proof.
  intros Hxy. unfold round. rewrite <- (Qcompare_comp x y Hxy 0 0 (Qeq_refl 0)).
  destruct (Qcompare_spec x 0) as [H0|Hlt|Hgt]; [reflexivity|..].
  - apply Qopp_comp, round_pos_proper; [lra|]. by rewrite Hxy.
  - by apply round_pos_proper.
Qed.

Lemma round_of_pos (x : Q) : 0 < x → round x = round_pos x.
Proof. intros Hx. unfold round. by rewrite (proj1 (Qgt_alt _ _) Hx). Qed.

Lemma round_zero (x : Q) : x == 0 → round x = 0.
Proof. intros Hx. unfold round. by rewrite (proj1 (Qeq_alt _ _) Hx). Qed.

(** An integer multiple of a power of two, at most 53 bits long, is a
    binary64 number and rounds to itself. *)
Lemma round_pos_exact (x : Q) (m t : Z) :
  (0 < m < 2 ^ 53)%Z → (emin ≤ t)%Z → x == inject_Z m * pow2 t →
  round_pos x == x.
Proof.
  intros [Hm0 Hm] Ht Hx.
  pose proof (pow2_pos t) as Hpt.
  assert (0 < inject_Z m) as Hm0' by (rewrite <- (Zlt_Qlt 0); done).
  assert (inject_Z m < pow2 53) as Hm'.
  { rewrite pow2_Z by lia. by rewrite <- Zlt_Qlt. }
  assert (0 < x) as Hxpos.
  { rewrite Hx. by apply Qmult_lt_0_compat. }
  assert (x < pow2 (53 + t)) as Hxlt.
  { rewrite Hx, pow2_add. by apply Qmult_lt_compat_r. }
  pose proof (ilog2_lt x _ Hxpos Hxlt) as Hil.
  unfold round_pos. set (q := ulp_exp x).
  assert (q ≤ t)%Z as Hq by (unfold q, ulp_exp, prec; lia).
  assert (x / pow2 q == inject_Z (m * 2 ^ (t - q))) as Hdiv.
  { rewrite inject_Z_mult, <- pow2_Z by lia. rewrite pow2_sub, Hx.
    pose proof (pow2_pos q). field. lra. }
  rewrite Hdiv, round_half_even_Z, <- Hdiv.
  apply pow2_div_mul.
Qed.

Lemma round_pos_ge_pow2 (x : Q) (e : Z) :
  (emin ≤ e)%Z → pow2 e <= x → pow2 e <= round_pos x.
Proof.
  intros He Hx.
  pose proof (ilog2_ge x e Hx) as Hil.
  assert (0 < x) as Hxpos by (pose proof (pow2_pos e); lra).
  destruct (ilog2_spec x Hxpos) as [Hlow _].
  unfold round_pos. set (q := ulp_exp x).
  assert (q ≤ ilog2 x)%Z as Hq by (unfold q, ulp_exp, prec; lia).
  pose proof (pow2_pos q) as Hpq.
  assert (inject_Z (2 ^ (ilog2 x - q)) <= x / pow2 q) as Hge.
  { rewrite <- pow2_Z by lia. rewrite pow2_sub.
    apply Qmult_le_compat_r; [done|]. apply Qlt_le_weak, Qinv_lt_0_compat. done. }
  apply round_half_even_ge in Hge.
  apply Qle_trans with (pow2 (ilog2 x)); [by apply pow2_le|].
  assert (pow2 (ilog2 x) == inject_Z (2 ^ (ilog2 x - q)) * pow2 q) as ->.
  { rewrite <- pow2_Z, <- pow2_add by lia.
    by replace (ilog2 x - q + q)%Z with (ilog2 x) by lia. }
  apply Qmult_le_compat_r; [|lra]. by rewrite <- Zle_Qle.
Qed.

Lemma round_pos_le_pow2 (x : Q) (e : Z) :
  (emin ≤ e)%Z → 0 < x → x <= pow2 e → round_pos x <= pow2 e.
Proof.
  intros He Hxpos Hx.
  assert (ilog2 x ≤ e)%Z as Hil.
  { destruct (ilog2_spec x Hxpos) as [Hlow _].
    apply pow2_le_inv. lra. }
  unfold round_pos. set (q := ulp_exp x).
  assert (q ≤ e)%Z as Hq by (unfold q, ulp_exp, prec; lia).
  pose proof (pow2_pos q) as Hpq.
  assert (x / pow2 q <= inject_Z (2 ^ (e - q))) as Hle.
  { rewrite <- pow2_Z by lia. rewrite pow2_sub.
    apply Qmult_le_compat_r; [done|]. apply Qlt_le_weak, Qinv_lt_0_compat. done. }
  apply round_half_even_le in Hle.
  assert (pow2 e == inject_Z (2 ^ (e - q)) * pow2 q) as ->.
  { rewrite <- pow2_Z, <- pow2_add by lia. by replace (e - q + q)%Z with e by lia. }
  apply Qmult_le_compat_r; [|lra]. by rewrite <- Zle_Qle.
Qed.

Lemma round_pos_scale (x : Q) (j : Z) :
  0 < x → (emin ≤ ilog2 x - 52)%Z → (emin ≤ ilog2 x + j - 52)%Z →
  round_pos (x * pow2 j) == round_pos x * pow2 j.
Proof.
  intros Hx H1 H2. unfold round_pos, ulp_exp.
  rewrite ilog2_scale by done.
  replace (Z.max (ilog2 x + j - (prec - 1)) emin)
    with (Z.max (ilog2 x - (prec - 1)) emin + j)%Z by (unfold prec; lia).
  set (q := Z.max (ilog2 x - (prec - 1)) emin).
  pose proof (pow2_pos q). pose proof (pow2_pos j).
  assert (x * pow2 j / pow2 (q + j) == x / pow2 q) as ->.
  { rewrite pow2_add. field. lra. }
  rewrite pow2_add. ring.
Qed.

(** ** Binary64 numbers of the program *)

Lemma dyadic_proper (x y : Q) (t : Z) : x == y → dyadic x t → dyadic y t.
Proof. intros Hxy (m & Hm & Hx). exists m. split; [done|]. by rewrite <- Hxy. Qed.

Lemma dyadic_nonneg (x : Q) (t : Z) : dyadic x t → 0 <= x.
Proof.
  intros (m & [Hm _] & ->). apply Qmult_le_0_compat.
  - by rewrite <- (Zle_Qle 0).
  - apply Qlt_le_weak, pow2_pos.
Qed.

Lemma pow2_10 : pow2 10 == inject_Z 1024.
Proof. reflexivity. Qed.

Lemma dyadic_div_1024 (x : Q) (t : Z) :
  dyadic x t → dyadic (x / inject_Z 1024) (t - 10).
Proof.
  intros (m & Hm & Hx). exists m. split; [done|].
  rewrite pow2_sub, pow2_10, Hx. by field.
Qed.

Lemma dyadic_mul_1024 (x : Q) (t : Z) :
  dyadic x t → dyadic (x * inject_Z 1024) (t + 10).
Proof.
  intros (m & Hm & Hx). exists m. split; [done|].
  rewrite pow2_add, pow2_10, Hx. ring.
Qed.

Lemma dyadic_of_N (n : N) :
  (n < 2 ^ 53)%N → dyadic (inject_Z (Z.of_N n)) 0.
Proof.
  intros Hn. exists (Z.of_N n). split; [lia|].
  change (pow2 0) with 1. ring.
Qed.

Lemma round_dyadic (x : Q) (t : Z) :
  dyadic x t → (emin ≤ t)%Z → round x == x.
Proof.
  intros (m & [Hm0 Hm] & Hx) Ht.
  destruct (decide (m = 0)%Z) as [->|Hne].
  - assert (x == 0) as H0 by (rewrite Hx; ring).
    by rewrite (round_zero x H0).
  - assert (0 < x) as Hxpos.
    { rewrite Hx. apply Qmult_lt_0_compat; [|apply pow2_pos].
      rewrite <- (Zlt_Qlt 0). lia. }
    rewrite round_of_pos by done.
    apply (round_pos_exact x m t); [lia|done..].
Qed.

(** The result of rounding a value of at least 1 has its last bit at
    2^-52 or above. *)
Lemma round_pos_dyadic (x : Q) :
  1 <= x → ∃ t, (-52 ≤ t)%Z ∧ dyadic (round_pos x) t.
Proof.
  intros Hx.
  assert (0 < x) as Hxpos by lra.
  assert (0 ≤ ilog2 x)%Z as Hil by (by apply ilog2_ge).
  destruct (ilog2_spec x Hxpos) as [Hlow Hup].
  unfold round_pos.
  replace (ulp_exp x) with (ilog2 x - 52)%Z by (unfold ulp_exp, prec, emin; lia).
  set (q := (ilog2 x - 52)%Z). pose proof (pow2_pos q) as Hpq.
  assert (x / pow2 q <= inject_Z (2 ^ 53)) as Hle.
  { rewrite <- pow2_Z by lia. apply Qle_shift_div_r; [done|].
    rewrite <- pow2_add. replace (53 + q)%Z with (ilog2 x + 1)%Z by lia. lra. }
  assert (inject_Z (2 ^ 52) <= x / pow2 q) as Hge.
  { rewrite <- pow2_Z by lia. apply Qle_shift_div_l; [done|].
    rewrite <- pow2_add. by replace (52 + q)%Z with (ilog2 x) by lia. }
  apply round_half_even_le in Hle. apply round_half_even_ge in Hge.
  set (m := round_half_even (x / pow2 q)) in *.
  destruct (decide (m = 2 ^ 53)%Z) as [Heq|Hne].
  - exists (q + 1)%Z. split; [lia|]. exists (2 ^ 52)%Z. split; [lia|].
    rewrite Heq, pow2_add. change (pow2 1) with 2.
    change (inject_Z (2 ^ 53)) with (inject_Z (2 ^ 52) * 2). ring.
  - exists q. split; [lia|]. exists m. split; [lia|reflexivity].
Qed.

Lemma finite_lt (x : Q) : 0 <= x → x < pow2 emax → finite x = true.
Proof.
  intros H0 Hx. unfold finite. rewrite Qabs_pos by done.
  destruct (Qle_bool (pow2 emax) x) eqn:Hb; [|done].
  apply Qle_bool_iff in Hb. lra.
Qed.

Lemma finite_ge (x : Q) : pow2 emax <= x → finite x = false.
Proof.
  intros Hx. unfold finite.
  assert (0 <= x) as H0 by (pose proof (pow2_pos emax); lra).
  rewrite Qabs_pos by done.
  by rewrite (proj2 (Qle_bool_iff _ _) Hx).
Qed.

(** Below the midpoint between the largest binary64 number and 2^1024,
    rounding stays in range. *)
Lemma round_pos_lt_emax (x : Q) :
  0 < x → x < pow2 1024 - pow2 970 → round_pos x < pow2 emax.
Proof.
  intros Hxpos Hx.
  pose proof (pow2_pos 970) as Hp970.
  destruct (Qlt_le_dec x (pow2 1023)) as [Hlt|Hge].
  - apply Qle_lt_trans with (pow2 1023).
    + apply round_pos_le_pow2; [done|done|lra].
    + by apply pow2_lt.
  - assert (ilog2 x = 1023%Z) as Hil by (apply ilog2_unique; [done|change (1023 + 1)%Z with 1024%Z; lra]).
    unfold round_pos.
    replace (ulp_exp x) with 971%Z by (unfold ulp_exp, prec, emin; lia).
    pose proof (pow2_pos 971) as Hp971.
    assert (x / pow2 971 < inject_Z (2 ^ 53) - (1 # 2)) as Hhalf.
    { apply Qlt_shift_div_r; [done|].
      assert ((inject_Z (2 ^ 53) - (1 # 2)) * pow2 971 == pow2 1024 - pow2 970) as ->;
        [|done].
      rewrite <- pow2_Z by lia.
      assert (1 # 2 == pow2 (-1)) as -> by reflexivity.
      assert (pow2 1024 == pow2 53 * pow2 971) as -> by (by rewrite <- pow2_add).
      assert (pow2 970 == pow2 (-1) * pow2 971) as -> by (by rewrite <- pow2_add).
      ring. }
    apply round_half_even_lt_half in Hhalf.
    apply Qle_lt_trans with (inject_Z (2 ^ 53 - 1) * pow2 971).
    + apply Qmult_le_compat_r; [|lra]. by rewrite <- Zle_Qle.
    + assert (pow2 emax == inject_Z (2 ^ 53) * pow2 971) as ->.
      { rewrite <- pow2_Z by lia. by rewrite <- pow2_add. }
      apply Qmult_lt_compat_r; [done|]. by rewrite <- Zlt_Qlt.
Qed.

Lemma format_02f_proper (x y : Q) : x == y → format_02f (Fin x) = format_02f (Fin y).
Proof.
  intros Hxy. unfold format_02f.
  assert (Qabs x * 100 == Qabs y * 100) as -> by (by rewrite Hxy).
  destruct (Qlt_le_dec x 0), (Qlt_le_dec y 0); try reflexivity; lra.
Qed.

Lemma lt_one_proper (x y : Q) : x == y → lt_one (Fin x) = lt_one (Fin y).
Proof. intros Hxy. unfold lt_one. by rewrite (Qleb_comp 1 1 (Qeq_refl 1) x y Hxy). Qed.

Lemma lt_one_true (x : Q) : lt_one (Fin x) = true ↔ x < 1.
Proof.
  unfold lt_one. destruct (Qle_bool 1 x) eqn:Hb; simpl.
  - apply Qle_bool_iff in Hb. split; [done|lra].
  - split; [|done]. intros _. apply Qnot_le_lt. intros H.
    apply Qle_bool_iff in H. congruence.
Qed.

Lemma scale_exact_proper (rest : list string) (prefix : string) (x y : Q) :
  x == y →
  fst (scale_exact prefix rest x) == fst (scale_exact prefix rest y) ∧
  snd (scale_exact prefix rest x) = snd (scale_exact prefix rest y).
Proof.
  revert prefix x y. induction rest as [|p rest IH]; intros prefix x y Hxy; simpl;
    rewrite (Qleb_comp 1 1 (Qeq_refl 1) x y Hxy); destruct (Qle_bool 1 y); try done.
  apply IH. by rewrite Hxy.
Qed.

Lemma finite_true_lt (x : Q) : 0 <= x → finite x = true → x < pow2 emax.
Proof.
  intros H0 Hf. apply Qnot_le_lt. intros Hle.
  rewrite (finite_ge x Hle) in Hf. discriminate.
Qed.

Lemma to_float_dyadic (z : Q) (t : Z) :
  dyadic z t → (emin ≤ t)%Z → z < pow2 emax →
  to_float z = Fin (round z) ∧ round z == z.
Proof.
  intros Hz Ht Hlt. pose proof (round_dyadic z t Hz Ht) as Hr.
  split; [|done]. unfold to_float.
  rewrite finite_lt; [done|..]; rewrite Hr; [by eapply dyadic_nonneg|done].
Qed.

Lemma scale_down_eq (prefix : string) (rest : list string) (size : num) :
  scale_down prefix rest size
  = truediv size 1024 ≫= λ size',
      if lt_one size' then mret (size', prefix)
      else match rest with
           | [] => mret (size', prefix)
           | prefix' :: rest' => scale_down prefix' rest' (Float size')
           end.
Proof. by destruct rest. Qed.

Lemma scale_down_float (rest : list string) :
  ∀ (prefix : string) (x : Q) (t : Z),
    dyadic x t → (emin + 10 * (Z.of_nat (length rest) + 1) ≤ t)%Z → x < pow2 emax →
    ∃ (y : Q) (t' : Z),
      scale_down prefix rest (Float (Fin x))
        = mret (Fin y, snd (scale_exact prefix rest (x / inject_Z 1024))) ∧
      y == fst (scale_exact prefix rest (x / inject_Z 1024)) ∧
      dyadic y t' ∧ (emin ≤ t')%Z ∧ y * inject_Z 1024 < pow2 emax.
Proof.
  induction rest as [|p rest IH]; intros prefix x t Hx Ht Hlt.
  all: pose proof (dyadic_nonneg x t Hx) as Hx0.
  all: pose proof (dyadic_div_1024 x t Hx) as Hd.
  all: assert (x / inject_Z 1024 <= x) as Hdle
         by (apply Qle_shift_div_r; [done|]; change (inject_Z 1024) with 1024; lra).
  all: destruct (to_float_dyadic (x / inject_Z 1024) (t - 10) Hd) as [Hf Hr];
         [simpl length in Ht; lia|lra|].
  all: assert (round (x / inject_Z 1024) * inject_Z 1024 < pow2 emax) as Hmul
         by (rewrite Hr; assert (x / inject_Z 1024 * inject_Z 1024 == x) as ->
               by (by field); done).
  all: rewrite scale_down_eq; unfold truediv; rewrite bind_ret, Hf; simpl scale_exact.
  all: rewrite (lt_one_proper _ _ Hr); unfold lt_one.
  all: destruct (Qle_bool 1 (x / inject_Z 1024)) eqn:Hb; simpl negb; cbv iota.
  - exists (round (x / inject_Z 1024)), (t - 10)%Z.
    split; [done|]. split; [done|]. split; [by eapply dyadic_proper|].
    split; [simpl length in Ht; lia|done].
  - exists (round (x / inject_Z 1024)), (t - 10)%Z.
    split; [done|]. split; [done|]. split; [by eapply dyadic_proper|].
    split; [simpl length in Ht; lia|done].
  - destruct (IH p (round (x / inject_Z 1024)) (t - 10)%Z) as (y & t' & He & Hy & Hdy & Ht' & Hfin).
    + by eapply dyadic_proper.
    + simpl length in Ht. lia.
    + rewrite Hr. lra.
    + assert (round (x / inject_Z 1024) / inject_Z 1024
              == x / inject_Z 1024 / inject_Z 1024) as Hrr by (by rewrite Hr).
      destruct (scale_exact_proper rest p _ _ Hrr) as [Hp1 Hp2].
      exists y, t'. rewrite He, Hp2. split; [done|]. split; [by rewrite Hy|done].
  - exists (round (x / inject_Z 1024)), (t - 10)%Z.
    split; [done|]. split; [done|]. split; [by eapply dyadic_proper|].
    split; [simpl length in Ht; lia|done].
Qed.

Lemma first_quotient_small (s : N) :
  (s < 1024)%N →
  first_quotient s == inject_Z (Z.of_N s) / inject_Z 1024 ∧
  dyadic (first_quotient s) (-10) ∧ first_quotient s < 1.
Proof.
  intros Hs. unfold first_quotient.
  assert (dyadic (inject_Z (Z.of_N s) / inject_Z 1024) (-10)) as Hd.
  { apply (dyadic_div_1024 _ 0), dyadic_of_N. lia. }
  assert (round (inject_Z (Z.of_N s) / inject_Z 1024)
          == inject_Z (Z.of_N s) / inject_Z 1024) as Hr by (by eapply round_dyadic).
  split; [done|]. split.
  - eapply dyadic_proper; [|done]. by symmetry.
  - rewrite Hr. apply Qlt_shift_div_r; [done|]. rewrite Qmult_1_l, <- Zlt_Qlt. lia.
Qed.

Lemma first_quotient_large (s : N) :
  (1024 ≤ s)%N →
  1 <= first_quotient s ∧ ∃ t, (-52 ≤ t)%Z ∧ dyadic (first_quotient s) t.
Proof.
  intros Hs. unfold first_quotient.
  assert (1 <= inject_Z (Z.of_N s) / inject_Z 1024) as H1.
  { apply Qle_shift_div_l; [done|]. rewrite Qmult_1_l, <- Zle_Qle. lia. }
  rewrite round_of_pos by lra. split.
  - by apply (round_pos_ge_pow2 _ 0).
  - by apply round_pos_dyadic.
Qed.

Lemma first_quotient_nonneg (s : N) : 0 <= first_quotient s.
Proof.
  destruct (N.lt_ge_cases s 1024) as [Hs|Hs].
  - destruct (first_quotient_small s Hs) as (_ & Hd & _). by eapply dyadic_nonneg.
  - destruct (first_quotient_large s Hs) as [H1 _]. lra.
Qed.

Lemma scale_down_int (prefix p : string) (rest : list string) (s : N) :
  (length rest ≤ 100)%nat →
  finite (first_quotient s) = true →
  ∃ (y : Q) (t' : Z),
    scale_down prefix (p :: rest) (Int s)
      = mret (Fin y, snd (scale_exact prefix (p :: rest) (first_quotient s))) ∧
    y == fst (scale_exact prefix (p :: rest) (first_quotient s)) ∧
    dyadic y t' ∧ (emin ≤ t')%Z ∧ y * inject_Z 1024 < pow2 emax.
Proof.
  intros Hlen Hfin.
  pose proof (finite_true_lt _ (first_quotient_nonneg s) Hfin) as Hlt.
  rewrite scale_down_eq. unfold truediv. fold (first_quotient s).
  rewrite Hfin, bind_ret.
  destruct (N.lt_ge_cases s 1024) as [Hs|Hs].
  - destruct (first_quotient_small s Hs) as (Hq & Hd & H1).
    rewrite (proj2 (lt_one_true _) H1).
    assert (scale_exact prefix (p :: rest) (first_quotient s)
            = (first_quotient s, prefix)) as ->.
    { simpl. destruct (Qle_bool 1 (first_quotient s)) eqn:Hb; [|done].
      apply Qle_bool_iff in Hb. lra. }
    exists (first_quotient s), (-10)%Z. split; [done|]. split; [done|].
    split; [done|]. split; [done|].
    apply Qlt_trans with (1 * inject_Z 1024); [by apply Qmult_lt_compat_r|].
    rewrite Qmult_1_l. change (inject_Z 1024) with (pow2 10). by apply pow2_lt.
  - destruct (first_quotient_large s Hs) as (H1 & t & Ht & Hd).
    assert (lt_one (Fin (first_quotient s)) = false) as ->.
    { destruct (lt_one _) eqn:Hb; [|done]. apply lt_one_true in Hb. lra. }
    simpl scale_exact. rewrite (proj2 (Qle_bool_iff _ _) H1).
    destruct (scale_down_float rest p _ t Hd) as (y & t' & He & Hy & Hdy & Ht' & Hf');
      [unfold emin; lia|done|].
    by exists y, t'.
Qed.

(** What [bytes_humanize] returns, in terms of the exact loop. *)
Lemma bytes_humanize_finite (s : N) :
  finite (first_quotient s) = true →
  bytes_humanize s
  = mret (format_02f
            (Fin (fst (scale_exact "B" ["KiB"; "MiB"; "GiB"; "TiB"] (first_quotient s))
                  * inject_Z 1024))
          +:+ snd (scale_exact "B" ["KiB"; "MiB"; "GiB"; "TiB"] (first_quotient s))).
Proof.
  intros Hfin. unfold bytes_humanize.
  destruct (scale_down_int "B" "KiB" ["MiB"; "GiB"; "TiB"] s) as (y & t & He & Hy & Hd & Ht & Hlt);
    [simpl; lia|done|].
  rewrite He, bind_ret. unfold fmul.
  destruct (to_float_dyadic (y * inject_Z 1024) (t + 10)) as [Hf Hr];
    [by apply dyadic_mul_1024|lia|done|].
  rewrite Hf. f_equal. f_equal. apply format_02f_proper. by rewrite Hr, Hy.
Qed.

Lemma bytes_humanize_overflow (s : N) :
  finite (first_quotient s) = false → bytes_humanize s = raise OverflowError.
Proof.
  intros Hfin. unfold bytes_humanize. rewrite scale_down_eq. unfold truediv.
  fold (first_quotient s). by rewrite Hfin.
Qed.

Lemma div_unit_0 (x : Q) : x / inject_Z (1024 ^ Z.of_nat 0) == x.
Proof. change (inject_Z (1024 ^ Z.of_nat 0)) with 1. by field. Qed.

Lemma scale_exact_index (rest : list string) :
  ∀ (prefix : string) (x : Q),
    ∃ k : nat,
      (k ≤ length rest)%nat ∧
      (prefix :: rest) !! k = Some (snd (scale_exact prefix rest x)) ∧
      fst (scale_exact prefix rest x) == x / inject_Z (1024 ^ Z.of_nat k) ∧
      (∀ j : nat, (j < k)%nat → 1 <= x / inject_Z (1024 ^ Z.of_nat j)) ∧
      (fst (scale_exact prefix rest x) < 1 ∨ k = length rest).
Proof.
  induction rest as [|p rest IH]; intros prefix x; simpl scale_exact.
  - exists 0%nat. split; [done|]. split; [by destruct (Qle_bool 1 x)|].
    split; [destruct (Qle_bool 1 x); simpl fst; by rewrite div_unit_0|].
    split; [lia|by right].
  - destruct (Qle_bool 1 x) eqn:Hb.
    + apply Qle_bool_iff in Hb.
      destruct (IH p (x / inject_Z 1024)) as (k & Hk & Hl & Hv & Hj & Hlast).
      exists (S k). split; [simpl; lia|]. split; [done|].
      assert (∀ i : nat, x / inject_Z 1024 / inject_Z (1024 ^ Z.of_nat i)
                         == x / inject_Z (1024 ^ Z.of_nat (S i))) as Hstep.
      { intros i. rewrite Nat2Z.inj_succ, Z.pow_succ_r by lia.
        rewrite inject_Z_mult.
        assert (0 < inject_Z (1024 ^ Z.of_nat i)) as Hpos
          by (rewrite <- (Zlt_Qlt 0); lia).
        field. lra. }
      split; [by rewrite Hv, Hstep|]. split.
      * intros [|j] Hlt; [by rewrite div_unit_0|].
        rewrite <- Hstep. apply Hj. lia.
      * destruct Hlast as [?| ->]; [by left|by right].
    + exists 0%nat. split; [lia|]. split; [done|].
      split; [simpl fst; by rewrite div_unit_0|].
      split; [lia|]. left. simpl. apply Qnot_le_lt. intros H.
      apply Qle_bool_iff in H. congruence.
Qed.

Lemma scaled_nonneg (s : N) (k : nat) : 0 <= scaled s k.
Proof.
  unfold scaled. apply Qle_shift_div_l.
  - rewrite <- (Zlt_Qlt 0). lia.
  - rewrite Qmult_0_l, <- (Zle_Qle 0). lia.
Qed.

Lemma scaled_succ (s : N) (k : nat) :
  scaled s 1 / inject_Z (1024 ^ Z.of_nat k) == scaled s k / inject_Z 1024.
Proof.
  unfold scaled.
  assert (0 < inject_Z (1024 ^ Z.of_nat k)) by (rewrite <- (Zlt_Qlt 0); lia).
  change (inject_Z (1024 ^ Z.of_nat 1)) with (inject_Z 1024).
  field. lra.
Qed.

(** Below 2^53 the first division is exact. *)
Lemma first_quotient_exact (s : N) :
  (s < 2 ^ 53)%N →
  first_quotient s == scaled s 1 ∧ finite (first_quotient s) = true.
Proof.
  intros Hs.
  assert (dyadic (scaled s 1) (-10)) as Hd
    by (apply (dyadic_div_1024 _ 0), dyadic_of_N; done).
  assert (first_quotient s == scaled s 1) as Hr by (by eapply round_dyadic).
  split; [done|]. apply finite_lt; [apply first_quotient_nonneg|].
  rewrite Hr. unfold scaled. apply Qlt_shift_div_r; [done|].
  apply Qlt_trans with (pow2 53).
  - rewrite pow2_Z by lia. rewrite <- Zlt_Qlt. lia.
  - apply Qlt_le_trans with (pow2 emax); [by apply pow2_lt|].
    rewrite <- (Qmult_1_r (pow2 emax)) at 1.
    apply Qmult_le_l; [apply pow2_pos|done].
Qed.




(** The first division stays in range below 2^1034 - 2^980. *)
Lemma first_quotient_in_range (s : N) :
  (s < 2 ^ 1034 - 2 ^ 980)%N → finite (first_quotient s) = true.
Proof.
  intros Hs. apply finite_lt; [apply first_quotient_nonneg|].
  destruct (N.lt_ge_cases s 1024) as [Hsmall|Hlarge].
  - destruct (first_quotient_small s Hsmall) as (_ & _ & H1).
    apply Qlt_trans with 1; [done|]. change 1 with (pow2 0). by apply pow2_lt.
  - unfold first_quotient.
    assert (1 <= inject_Z (Z.of_N s) / inject_Z 1024) as H1.
    { apply Qle_shift_div_l; [done|]. rewrite Qmult_1_l, <- Zle_Qle. lia. }
    rewrite round_of_pos by lra. apply round_pos_lt_emax; [lra|].
    apply Qlt_shift_div_r; [done|].
    assert ((pow2 1024 - pow2 970) * inject_Z 1024
            == inject_Z (2 ^ 1034 - 2 ^ 980)) as ->.
    { change (inject_Z 1024) with (pow2 10).
      assert ((pow2 1024 - pow2 970) * pow2 10 == pow2 (1024 + 10) - pow2 (970 + 10)) as ->
        by (rewrite !pow2_add; ring).
      rewrite !pow2_Z by lia.
      unfold Zminus. rewrite inject_Z_plus, inject_Z_opp. reflexivity. }
    rewrite <- Zlt_Qlt. lia.
Qed.

(** C9, as the code has it: from 1024^4 up to the range of a float the
    unit is TiB and the value is the byte count divided by 1024^4 as a
    float, the binary64 number nearest to the exact quotient; below 2^53
    that is the exact quotient. *)
Theorem humanize_saturates_at_TiB (size : N) :
  (1024 ^ 4 ≤ size)%N → (size < 2 ^ 1034 - 2 ^ 980)%N →
  bytes_humanize size = mret (format_02f (Fin (B64.round (scaled size 4))) +:+ "TiB") ∧
  ((size < 2 ^ 53)%N → B64.round (scaled size 4) == scaled size 4).
Proof.
  intros Hlow Hup.
  pose proof (first_quotient_in_range size Hup) as Hfin.
  assert (1 <= scaled size 4) as H1.
  { unfold scaled. apply Qle_shift_div_l; [done|].
    rewrite Qmult_1_l, <- Zle_Qle. change (Z.of_nat 4) with 4%Z. lia. }
  assert (0 ≤ ilog2 (scaled size 4))%Z as Hil by (by apply ilog2_ge).
  assert (inject_Z (Z.of_N size) / inject_Z 1024 == scaled size 4 * pow2 30) as Hsc.
  { unfold scaled. change (pow2 30) with (inject_Z (1024 ^ 3)).
    change (inject_Z (1024 ^ Z.of_nat 4)) with (inject_Z (1024 ^ 3) * inject_Z 1024).
    by field. }
  assert (first_quotient size == round (scaled size 4) * pow2 30) as Hq.
  { unfold first_quotient. rewrite (round_proper _ _ Hsc).
    pose proof (pow2_pos 30).
    rewrite (round_of_pos (scaled size 4 * pow2 30))
      by (apply Qmult_lt_0_compat; lra).
    rewrite (round_of_pos (scaled size 4)) by lra.
    apply round_pos_scale; [lra|unfold emin; lia..]. }
  assert (inject_Z (1024 ^ 3) <= first_quotient size) as Hge.
  { rewrite Hq. change (inject_Z (1024 ^ 3)) with (pow2 30).
    rewrite <- (Qmult_1_l (pow2 30)) at 1.
    apply Qmult_le_compat_r; [|apply Qlt_le_weak, pow2_pos].
    rewrite round_of_pos by lra. by apply (round_pos_ge_pow2 _ 0). }
  split.
  - rewrite (bytes_humanize_finite size Hfin).
    set (rest := ["KiB"; "MiB"; "GiB"; "TiB"]).
    destruct (scale_exact_index rest "B" (first_quotient size))
      as (k & Hk & Hl & Hv & _ & Hlast).
    change (length rest) with 4%nat in Hk, Hlast.
    assert (k = 4%nat) as ->.
    { destruct (decide (k = 4%nat)) as [|Hne]; [done|].
      destruct Hlast as [Hlt|]; [exfalso|done].
      apply (Qlt_not_le _ _ Hlt). rewrite Hv.
      assert (0 < inject_Z (1024 ^ Z.of_nat k)) as Hpos
        by (rewrite <- (Zlt_Qlt 0); lia).
      apply Qle_shift_div_l; [done|]. rewrite Qmult_1_l.
      apply Qle_trans with (inject_Z (1024 ^ 3)); [|done].
      rewrite <- Zle_Qle. apply Z.pow_le_mono_r; lia. }
    change (("B" :: rest) !! 4%nat) with (Some "TiB") in Hl.
    assert (snd (scale_exact "B" rest (first_quotient size)) = "TiB") as ->
      by congruence.
    f_equal. f_equal. apply format_02f_proper.
    rewrite Hv, Hq. change (pow2 30) with (inject_Z (1024 ^ 3)).
    change (inject_Z (1024 ^ Z.of_nat 4)) with (inject_Z (1024 ^ 3) * inject_Z 1024).
    by field.
  - intros H53. apply (round_dyadic _ (-40)); [|done].
    destruct (dyadic_of_N size H53) as (m & Hm & Hx).
    exists m. split; [done|]. unfold scaled. rewrite Hx.
    change (inject_Z (1024 ^ Z.of_nat 4)) with (pow2 40).
    assert (pow2 (-40) == / pow2 40) as -> by reflexivity.
    change (pow2 0) with 1. field. discriminate.
Qed.

Lemma humanize_saturates_at_TiB_witness :
  (1024 ^ 4 ≤ 3 * 2 ^ 39)%N ∧ (3 * 2 ^ 39 < 2 ^ 1034 - 2 ^ 980)%N ∧
  bytes_humanize (3 * 2 ^ 39)
  = mret (format_02f (Fin (B64.round (scaled (3 * 2 ^ 39) 4))) +:+ "TiB").
Proof.
  assert (1024 ^ 4 ≤ 3 * 2 ^ 39)%N as Hlow by (vm_compute; discriminate).
  assert (3 * 2 ^ 39 < 2 ^ 1034 - 2 ^ 980)%N as Hup by (vm_compute; reflexivity).
  split; [exact Hlow|]. split; [exact Hup|].
  exact (proj1 (humanize_saturates_at_TiB (3 * 2 ^ 39) Hlow Hup)).
Defined.

(** At 2^1034 the first division does not fit a float. *)
Lemma humanize_overflows_at_2_pow_1034 :
  bytes_humanize (2 ^ 1034) = raise OverflowError ∧
  ¬ ∃ text : string, bytes_humanize (2 ^ 1034) = mret text.
Proof.
  assert (bytes_humanize (2 ^ 1034) = raise OverflowError) as H by (by vm_compute).
  split; [done|]. intros [text Ht]. rewrite H in Ht. discriminate.
Qed.

(** ** The run up to the package list *)

Lemma bind_assoc {A B C : Type} (m : M A) (f : A → M B) (g : B → M C) :
  (m ≫= f) ≫= g = m ≫= λ a, f a ≫= g.
Proof.
  destruct m as [out [e|a]]; [done|].
  unfold mbind, M_bind. destruct (f a) as [out1 [e1|b]]; [done|].
  destruct (g b) as [out2 r]. by rewrite app_assoc.
Qed.

Lemma bind_ext {A B : Type} (m : M A) (f g : A → M B) :
  (∀ a, f a = g a) → m ≫= f = m ≫= g.
Proof. intros Hfg. destruct m as [out [e|a]]; [done|]. unfold mbind, M_bind. by rewrite Hfg. Qed.

Lemma for_each_ext {A : Type} (xs : list A) (f g : A → M unit) :
  (∀ a, f a = g a) → for_each xs f = for_each xs g.
Proof. intros Hfg. induction xs as [|x xs IH]; [done|]. simpl. by rewrite Hfg, IH. Qed.

Lemma main_segments (w : world) (human_readable show_total : bool) :
  main w human_readable show_total
  = installed w ≫= λ packages,
      let packages := list_sort size packages in
      if show_total then
        display human_readable (sum (map size packages)) ≫= print
      else for_each packages (package_line human_readable).
Proof.
  unfold main, installed. rewrite !bind_assoc.
  apply bind_ext; intros config. rewrite !bind_assoc.
  apply bind_ext; intros root_dir. rewrite !bind_assoc.
  apply bind_ext; intros db_path. rewrite !bind_assoc.
  apply bind_ext; intros alpm. apply bind_ext; intros packages.
  by destruct show_total, human_readable.
Qed.

Lemma silent_ret {A : Type} (a : A) : silent (mret a : M A).
Proof. done. Qed.

Lemma silent_raise {A : Type} (e : exn) : silent (raise e : M A).
Proof. done. Qed.

Lemma silent_bind {A B : Type} (m : M A) (k : A → M B) :
  silent m → (∀ a, silent (k a)) → silent (m ≫= k).
Proof.
  destruct m as [out [e|a]]; unfold silent, stdout; simpl; [done|].
  intros -> Hk. specialize (Hk a). unfold silent, stdout in Hk.
  unfold mbind, M_bind. destruct (k a) as [out' r]. by simpl in *.
Qed.

Lemma silent_read (w : world) (c : ConfigParser) : silent (read w c).
Proof. unfold read. destruct (pacman_conf w); [destruct (parse_ini w _)|]; done. Qed.

Lemma silent_get (w : world) (c : ConfigParser) (section key : string) :
  silent (get w c section key).
Proof.
  unfold get. apply silent_bind.
  - unfold unify_values. destruct (_ !! _); [done|]. by destruct (decide _).
  - intros d. destruct (d !! _) as [[v|]|]; [|done..].
    destruct (has_percent v); [|done]. by destruct (interpolate w d v).
Qed.

Lemma silent_encode (s : option string) : silent (encode s).
Proof. by destruct s. Qed.

Lemma silent_collect (w : world) (res : list ptr) :
  ∀ acc, silent (collect w res acc).
Proof.
  induction res as [|pkg res IH]; intros acc; simpl; [done|].
  apply silent_bind; [|intros; apply IH].
  unfold decode. by destruct (utf8_valid w _).
Qed.

Lemma silent_installed (w : world) : silent (installed w).
Proof.
  unfold installed.
  apply silent_bind; [apply silent_read|intros config].
  apply silent_bind; [apply silent_get|intros root_dir].
  apply silent_bind; [apply silent_get|intros db_path].
  apply silent_bind.
  - unfold ALPM_init. apply silent_bind; [apply silent_encode|intros root].
    by apply silent_bind; [apply silent_encode|intros db].
  - intros alpm. unfold search_db.
    apply silent_bind; [done|intros needle]. apply silent_collect.
Qed.

Lemma installed_cases (w : world) :
  (∃ e, installed w = raise e) ∨ (∃ packages, installed w = mret packages).
Proof.
  pose proof (silent_installed w) as Hs. unfold silent, stdout in Hs.
  destruct (installed w) as [out [e|l]]; simpl in Hs; subst out.
  - left. by exists e.
  - right. by exists l.
Qed.

Lemma collect_uint64 (w : world) (res : list ptr) :
  ∀ acc packages,
    Forall uint64_size acc → collect w res acc = mret packages →
    Forall uint64_size packages.
Proof.
  induction res as [|pkg res IH]; intros acc packages Hacc; simpl.
  - by intros [= <-].
  - unfold decode. destruct (utf8_valid w _); [|done].
    rewrite bind_ret. apply IH. apply Forall_app. split; [done|].
    apply Forall_singleton. unfold uint64_size; simpl.
    apply N.mod_lt. done.
Qed.

Lemma bind_mret_inv {A B : Type} (m : M A) (k : A → M B) (b : B) :
  m ≫= k = mret b → ∃ a, m = mret a ∧ k a = mret b.
Proof.
  destruct m as [out [e|a]]; [done|]. unfold mbind, M_bind.
  destruct (k a) as [out' r] eqn:Hk. intros [= Hout ->].
  apply app_eq_nil in Hout as [-> ->]. by exists a.
Qed.

Lemma installed_uint64 (w : world) (packages : list Package) :
  installed w = mret packages → Forall uint64_size packages.
Proof.
  unfold installed. intros H.
  apply bind_mret_inv in H as (config & _ & H).
  apply bind_mret_inv in H as (root_dir & _ & H).
  apply bind_mret_inv in H as (db_path & _ & H).
  apply bind_mret_inv in H as (alpm & _ & H).
  unfold search_db in H. apply bind_mret_inv in H as (needle & _ & H).
  by eapply collect_uint64.
Qed.

Lemma foldl_add (a : N) (ns : list N) : foldl N.add a ns = (a + sum ns)%N.
Proof.
  unfold sum. revert a. induction ns as [|n ns IH]; intros a; simpl; [lia|].
  rewrite (IH (a + n)%N), (IH (0 + n)%N). lia.
Qed.

Lemma sum_cons (n : N) (ns : list N) : sum (n :: ns) = (n + sum ns)%N.
Proof. unfold sum at 1. simpl. by rewrite foldl_add. Qed.

Lemma sum_permutation (l1 l2 : list N) : l1 ≡ₚ l2 → sum l1 = sum l2.
Proof. induction 1; rewrite ?sum_cons; [done|congruence|lia|congruence]. Qed.

Lemma sum_sorted (packages : list Package) :
  sum (map size (list_sort size packages)) = sum (map size packages).
Proof. apply sum_permutation, Permutation_map, list_sort_perm. Qed.

(** A size from a [uint64_t] is always humanized. *)
Lemma bytes_humanize_uint64 (n : N) :
  (n < 2 ^ 64)%N → ∃ text : string, bytes_humanize n = mret text.
Proof.
  intros Hn. eexists. apply bytes_humanize_finite, first_quotient_in_range.
  eapply N.lt_trans; [done|]. by vm_compute.
Qed.

Lemma for_each_cons {A : Type} (x : A) (xs : list A) (body : A → M unit) :
  for_each (x :: xs) body = body x ≫= λ _, for_each xs body.
Proof. done. Qed.

Lemma package_line_raw (p : Package) :
  package_line false p = print (name p +:+ " " +:+ str (size p)).
Proof. unfold package_line, display. by rewrite bind_ret. Qed.

Lemma package_line_human (p : Package) (text : string) :
  bytes_humanize (size p) = mret text →
  package_line true p = print (name p +:+ " " +:+ text).
Proof. intros Ht. unfold package_line, display. by rewrite Ht, bind_ret. Qed.

Lemma for_each_raw (packages : list Package) :
  for_each packages (package_line false)
  = (map (λ p, name p +:+ " " +:+ str (size p)) packages, inr tt).
Proof.
  induction packages as [|p l IH]; [done|].
  by rewrite for_each_cons, package_line_raw, bind_print, IH.
Qed.

Lemma for_each_human (packages : list Package) :
  Forall uint64_size packages →
  ∃ texts : list string,
    length texts = length packages ∧
    for_each packages (package_line true)
    = (zip_with (λ p text, name p +:+ " " +:+ text) packages texts, inr tt).
Proof.
  induction 1 as [|p l Hp Hl (texts & Hlen & IH)]; [by exists []|].
  destruct (bytes_humanize_uint64 (size p) Hp) as [text Ht].
  exists (text :: texts). split; [simpl; congruence|].
  by rewrite for_each_cons, (package_line_human p text Ht), bind_print, IH.
Qed.

(** ** The modes of [main] *)

Lemma main_with (w : world) (packages : list Package) (h t : bool) :
  installed w = mret packages →
  main w h t
  = if t then display h (sum (map size (list_sort size packages))) ≫= print
    else for_each (list_sort size packages) (package_line h).
Proof. intros Hi. by rewrite main_segments, Hi, bind_ret. Qed.



(** C7: with no package installed, per-package mode prints nothing and
    total mode prints "0", or "0.00B" with the human-readable flag. *)
Theorem empty_package_set (w : world) :
  installed w = mret [] →
  main w false false = ([], inr tt) ∧
  main w true false = ([], inr tt) ∧
  main w false true = (["0"], inr tt) ∧
  main w true true = (["0.00B"], inr tt).
Proof.
  intros Hi. rewrite !(main_with w []) by done. by vm_compute.
Qed.

Lemma empty_package_set_witness :
  installed empty_system = mret [] ∧
  main empty_system false false = ([], inr tt) ∧
  main empty_system true false = ([], inr tt) ∧
  main empty_system false true = (["0"], inr tt) ∧
  main empty_system true true = (["0.00B"], inr tt).
Proof.
  assert (installed empty_system = mret []) as Hi by (vm_compute; reflexivity).
  split; [exact Hi|]. exact (empty_package_set empty_system Hi).
Defined.

(** C10: the human-readable flag changes only the size text of each line:
    both outputs have one line per package of the sorted list, in its
    order, with the package's name first, and both runs end the same way. *)
Theorem human_flag_keeps_lines (w : world) :
  ∃ texts : list string,
    length texts = length (installed_sorted w) ∧
    stdout (main w true false)
      = zip_with (λ p text, name p +:+ " " +:+ text) (installed_sorted w) texts ∧
    stdout (main w false false)
      = map (λ p, name p +:+ " " +:+ str (size p)) (installed_sorted w) ∧
    length (stdout (main w true false)) = length (stdout (main w false false)) ∧
    outcome (main w true false) = outcome (main w false false).
Proof.
  unfold installed_sorted.
  destruct (installed_cases w) as [[e He]|[l Hl]].
  - exists []. by rewrite !main_segments, He.
  - pose proof (installed_uint64 w l Hl) as Hu.
    assert (Forall uint64_size (list_sort size l)) as Hs.
    { eapply Permutation_Forall; [|exact Hu]. symmetry. apply list_sort_perm. }
    destruct (for_each_human _ Hs) as (texts & Hlen & Hh).
    exists texts. rewrite !(main_with w l) by done.
    rewrite Hl, Hh, for_each_raw. simpl.
    split; [done|]. split; [done|]. split; [done|]. split; [|done].
    rewrite length_zip_with, length_map. lia.
Qed.

(** ** The configuration *)

Lemma stored_cp_set (c : ConfigParser) (s k : string) (v : option string)
    (section key : string) :
  ¬ (s = section ∧ k = key) →
  stored (cp_set c s k v) section key = stored c section key.
Proof.
  intros Hne. unfold stored, cp_set. destruct (decide (s = "DEFAULT")); [done|]. simpl.
  destruct (decide (s = section)) as [->|Hs].
  - rewrite lookup_insert_eq. simpl.
    rewrite lookup_insert_ne by (intros ->; by apply Hne).
    by destruct (cp_sections c !! section).
  - by rewrite lookup_insert_ne.
Qed.

Lemma stored_cp_add_section (c : ConfigParser) (s section key : string) :
  stored (cp_add_section c s) section key = stored c section key.
Proof.
  unfold stored, cp_add_section. destruct (decide (s = "DEFAULT")); [done|]. simpl.
  destruct (decide (s = section)) as [->|Hs].
  - rewrite lookup_insert_eq. by destruct (cp_sections c !! section).
  - by rewrite lookup_insert_ne.
Qed.

Lemma stored_set_all (options : list (string * option string)) (s section key : string) :
  ∀ c, (s = section → ∀ value, (key, value) ∉ options) →
    stored (foldl (λ c '(k, v), cp_set c s k v) c options) section key
    = stored c section key.
Proof.
  induction options as [|[k v] options IH]; intros c Hno; [done|]. simpl.
  rewrite IH.
  - apply stored_cp_set. intros [-> ->]. apply (Hno eq_refl v). left.
  - intros Hs value Hin. apply (Hno Hs value). by right.
Qed.


Lemma get_stored (w : world) (c : ConfigParser) (section key value : string) :
  stored c section (lower key) = Some (Some value) → has_percent value = false →
  get w c section key = mret (Some value).
Proof.
  unfold stored, get, unify_values. intros Hst Hp.
  destruct (cp_sections c !! section) as [options|]; [|done]. simpl in Hst.
  rewrite bind_ret. rewrite (lookup_union_Some_l _ _ _ _ Hst). by rewrite Hp.
Qed.

Lemma default_config_stored :
  stored default_config "options" "rootdir" = Some (Some "/") ∧
  stored default_config "options" "dbpath" = Some (Some "/var/lib/pacman").
Proof. by vm_compute. Qed.

Lemma lower_keys : lower "RootDir" = "rootdir" ∧ lower "DBPath" = "dbpath".
Proof. by vm_compute. Qed.





(** ** The database session *)

(** C4, as the code has it: [ALPM.__init__] passes a null error pointer
    and keeps the handle that [alpm_initialize] returns without looking at
    it, so a failed initialization raises nothing: the run goes on with
    the local database of the null handle, and when the library answers
    the search on it with an empty list, per-package mode prints nothing
    and the process ends with status 0. *)
Theorem initialization_failure_goes_unreported (w : world)
    (config : ConfigParser) (root db : string) :
  read_pacman_config w = mret config →
  get w config "options" "RootDir" = mret (Some root) →
  get w config "options" "DBPath" = mret (Some db) →
  alpm_initialize w root db = NULL →
  ALPM_init w (Some root) (Some db)
    = mret {| handle := NULL; local_db := alpm_get_localdb w NULL |} ∧
  installed w
    = search_db w {| handle := NULL; local_db := alpm_get_localdb w NULL |} ".*" ∧
  (alpm_db_search w (alpm_get_localdb w NULL) [".*"] = [] →
   ∀ human_readable : bool,
     main w human_readable false = ([], inr tt) ∧
     exit_status (main w human_readable false) = 0%Z).
Proof.
  intros Hc Hr Hd Hi.
  assert (ALPM_init w (Some root) (Some db)
          = mret {| handle := NULL; local_db := alpm_get_localdb w NULL |}) as Ha.
  { unfold ALPM_init, encode. rewrite !bind_ret. by rewrite Hi. }
  assert (installed w
          = search_db w {| handle := NULL; local_db := alpm_get_localdb w NULL |} ".*")
    as Hs.
  { unfold installed. by rewrite Hc, bind_ret, Hr, bind_ret, Hd, bind_ret, Ha, bind_ret. }
  split; [done|]. split; [done|]. intros He h.
  assert (installed w = mret []) as Hn.
  { rewrite Hs. unfold search_db, encode. rewrite bind_ret. simpl. by rewrite He. }
  by rewrite (main_with w [] h false Hn).
Qed.

Lemma initialization_failure_goes_unreported_witness :
  alpm_initialize unopened_system "/" "/var/lib/pacman" = NULL ∧
  main unopened_system true false = ([], inr tt) ∧
  exit_status (main unopened_system true false) = 0%Z.
Proof.
  split; [reflexivity|].
  apply (proj2 (proj2
           (initialization_failure_goes_unreported unopened_system default_config
              "/" "/var/lib/pacman"
              ltac:(vm_compute; reflexivity) ltac:(vm_compute; reflexivity)
              ltac:(vm_compute; reflexivity) ltac:(vm_compute; reflexivity)))
           ltac:(vm_compute; reflexivity) true).
Defined.

(** C4 fails: with a library whose initialization fails the program ends
    normally, in both modes, and its exit status is 0. *)
Lemma failed_initialization_ends_with_status_0 :
  alpm_initialize unopened_system "/" "/var/lib/pacman" = NULL ∧
  main unopened_system false false = ([], inr tt) ∧
  main unopened_system false true = (["0"], inr tt) ∧
  exit_status (main unopened_system false false) = 0%Z ∧
  ¬ ∃ e : exn, outcome (main unopened_system false false) = inl e.
Proof.
  split; [reflexivity|].
  split; [vm_compute; reflexivity|].
  split; [vm_compute; reflexivity|].
  split; [vm_compute; reflexivity|].
  intros [e He]. vm_compute in He. discriminate.
Qed.

(** * Further properties *)

(** ** The search *)

Lemma collect_decodable (w : world) (res : list ptr) :
  ∀ acc : list Package,
    Forall (decodable w) res →
    collect w res acc = mret (acc ++ map (package_of w) res).
Proof.
  induction res as [|pkg res IH]; intros acc Hres; simpl.
  - by rewrite app_nil_r.
  - apply Forall_cons in Hres as [Hpkg Hres]. unfold decode.
    rewrite Hpkg, bind_ret, (IH _ Hres). by rewrite <- app_assoc.
Qed.

Lemma collect_undecodable (w : world) (res : list ptr) :
  ∀ acc : list Package,
    Exists (λ pkg, ¬ decodable w pkg) res →
    collect w res acc = raise UnicodeDecodeError.
Proof.
  induction res as [|pkg res IH]; intros acc Hres; [by apply Exists_nil in Hres|].
  simpl. unfold decode.
  destruct (utf8_valid w (alpm_pkg_get_name w pkg)) eqn:Hv.
  - rewrite bind_ret. apply IH. apply Exists_cons in Hres as [Hpkg|Hres]; [|done].
    by destruct Hpkg.
  - done.
Qed.

Lemma search_db_collect (w : world) (self : ALPM) (name : string) :
  search_db w self name = collect w (found w self name) [].
Proof. unfold search_db, encode. by rewrite bind_ret. Qed.

(** X1: when every package name of the chain that libalpm answers with is
    valid UTF-8, [search_db] returns one record per package of the chain,
    in the order of the chain, with the name and the installed size of
    that package. *)
Theorem search_db_lists_chain (w : world) (self : ALPM) (name : string) :
  Forall (decodable w) (found w self name) →
  search_db w self name = mret (map (package_of w) (found w self name)).
Proof.
  intros Hres. by rewrite search_db_collect, (collect_decodable w _ [] Hres).
Qed.

Lemma search_db_lists_chain_witness :
  Forall (decodable example_system)
    (found example_system example_session ".*") ∧
  search_db example_system example_session ".*"
  = mret example_packages.
Proof.
  assert (Forall (decodable example_system)
            (found example_system example_session ".*")) as H.
  { apply Forall_forall. intros pkg _. reflexivity. }
  split; [exact H|].
  exact (search_db_lists_chain example_system example_session ".*" H).
Defined.

(** X2: a package name that is not valid UTF-8 makes [search_db] raise
    UnicodeDecodeError, wherever the package is in the chain: the records
    appended before it are lost. *)
Theorem search_db_undecodable_name (w : world) (self : ALPM) (name : string) :
  Exists (λ pkg, ¬ decodable w pkg) (found w self name) →
  search_db w self name = raise UnicodeDecodeError.
Proof. intros Hres. by rewrite search_db_collect, (collect_undecodable w _ [] Hres). Qed.

Lemma search_db_undecodable_name_witness :
  Exists (λ pkg, ¬ decodable garbled_system pkg)
    (found garbled_system example_session ".*") ∧
  search_db garbled_system example_session ".*"
  = raise UnicodeDecodeError.
Proof.
  assert (Exists (λ pkg, ¬ decodable garbled_system pkg)
            (found garbled_system example_session ".*")) as H.
  { apply Exists_cons_tl, Exists_cons_hd. vm_compute. discriminate. }
  split; [exact H|].
  exact (search_db_undecodable_name garbled_system example_session ".*" H).
Defined.

Lemma search_db_cases (w : world) (self : ALPM) (name : string) :
  (Forall (decodable w) (found w self name) ∧
   search_db w self name = mret (map (package_of w) (found w self name))) ∨
  search_db w self name = raise UnicodeDecodeError.
Proof.
  destruct (Forall_Exists_dec (decodable w) (λ pkg, ¬ decodable w pkg)
              (λ pkg, bool_dec (utf8_valid w (alpm_pkg_get_name w pkg)) true)
              (found w self name)) as [H|H].
  - left. split; [done|].
    by rewrite search_db_collect, (collect_decodable w _ [] H).
  - right. by rewrite search_db_collect, (collect_undecodable w _ [] H).
Qed.

(** X3: whatever [search_db] returns, every name of the chain was valid
    UTF-8, the names and the sizes returned are those of the chain, in its
    order, and every size is below 2^64. *)
Theorem search_db_result (w : world) (self : ALPM) (pattern : string)
    (packages : list Package) :
  search_db w self pattern = mret packages →
  Forall (decodable w) (found w self pattern) ∧
  map name packages = map (alpm_pkg_get_name w) (found w self pattern) ∧
  map size packages
  = map (λ pkg, (alpm_pkg_get_isize w pkg mod 2 ^ 64)%N) (found w self pattern) ∧
  Forall uint64_size packages.
Proof.
  intros Hs. destruct (search_db_cases w self pattern) as [[Hd Hm]|Hr];
    [|by rewrite Hr in Hs].
  rewrite Hm in Hs. injection Hs as <-. split; [done|].
  rewrite !map_map. split; [done|]. split; [done|].
  apply Forall_map, Forall_forall. intros pkg _. by apply N.mod_lt.
Qed.

Lemma search_db_result_witness :
  search_db example_system example_session ".*" = mret example_packages ∧
  map size example_packages = [50000000; 1536; 1536; 0]%N.
Proof.
  assert (search_db example_system example_session ".*" = mret example_packages)
    as H by (vm_compute; reflexivity).
  split; [exact H|].
  exact (proj1 (proj2 (proj2
           (search_db_result example_system example_session ".*" example_packages H)))).
Defined.

(** ** Assignments of the configuration file *)

Lemma assign_options_cons (key k : string) (v : option string)
    (options : list (string * option string)) (acc : option (option string)) :
  assign_options key ((k, v) :: options) acc
  = assign_options key options (if decide (k = key) then Some v else acc).
Proof. done. Qed.

Lemma assign_sections_cons (section key s : string)
    (options : list (string * option string)) (source : ini)
    (acc : option (option string)) :
  assign_sections section key ((s, options) :: source) acc
  = assign_sections section key source
      (if decide (s = section) then assign_options key options acc else acc).
Proof. done. Qed.

Lemma assign_options_acc (key : string) (options : list (string * option string)) :
  ∀ acc, assign_options key options acc
         = overridden (assign_options key options None) acc.
Proof.
  induction options as [|[k v] options IH]; intros acc; [done|].
  rewrite !assign_options_cons, IH, (IH (if decide (k = key) then _ else _)).
  by destruct (decide (k = key)), (assign_options key options None).
Qed.

Lemma assign_sections_acc (section key : string) (source : ini) :
  ∀ acc, assign_sections section key source acc
         = overridden (assign_sections section key source None) acc.
Proof.
  induction source as [|[s options] source IH]; intros acc; [done|].
  rewrite !assign_sections_cons, IH, (IH (if decide (s = section) then _ else _)).
  destruct (decide (s = section)).
  - rewrite (assign_options_acc key options acc).
    by destruct (assign_sections section key source None),
                (assign_options key options None).
  - by destruct (assign_sections section key source None).
Qed.

Lemma stored_cp_set_eq (c : ConfigParser) (section key : string) (v : option string) :
  section ≠ "DEFAULT" → stored (cp_set c section key v) section key = Some v.
Proof.
  intros Hs. unfold stored, cp_set. rewrite decide_False by done. simpl.
  rewrite lookup_insert_eq. simpl. by rewrite lookup_insert_eq.
Qed.

Lemma stored_set_options (options : list (string * option string))
    (section key : string) :
  section ≠ "DEFAULT" →
  ∀ c, stored (foldl (λ c '(k, v), cp_set c section k v) c options) section key
       = overridden (assign_options key options None) (stored c section key).
Proof.
  intros Hs. induction options as [|[k v] options IH]; intros c; [done|].
  simpl foldl. rewrite IH, assign_options_cons.
  rewrite (assign_options_acc key options (if decide (k = key) then _ else _)).
  destruct (decide (k = key)) as [->|Hk].
  - rewrite stored_cp_set_eq by done. by destruct (assign_options key options None).
  - rewrite stored_cp_set; [|by intros [_ ?]].
    by destruct (assign_options key options None).
Qed.

Lemma stored_cp_update_assigned (source : ini) (section key : string) :
  section ≠ "DEFAULT" →
  ∀ c, stored (cp_update c source) section key
       = overridden (assigned source section key) (stored c section key).
Proof.
  intros Hs. unfold cp_update, assigned.
  induction source as [|[s options] source IH]; intros c; [done|].
  simpl foldl. rewrite IH, assign_sections_cons.
  rewrite (assign_sections_acc section key source (if decide (s = section) then _ else _)).
  destruct (decide (s = section)) as [->|Hne].
  - rewrite stored_set_options, stored_cp_add_section by done.
    by destruct (assign_sections section key source None),
                (assign_options key options None).
  - rewrite stored_set_all, stored_cp_add_section by done.
    by destruct (assign_sections section key source None).
Qed.

Lemma get_stored_None (w : world) (c : ConfigParser) (section key : string) :
  stored c section (lower key) = Some None → get w c section key = mret None.
Proof.
  unfold stored, get, unify_values. intros Hst.
  destruct (cp_sections c !! section) as [options|]; [|done]. simpl in Hst.
  by rewrite bind_ret, (lookup_union_Some_l _ _ _ _ Hst).
Qed.



(** X4: a value that the configuration file gives an option of the section
    [options] replaces the default: [config.get] returns the last value
    the file assigns, under any capitalisation of the key. *)
Theorem file_value_overrides_default (w : world) (text : string) (source : ini)
    (key value : string) :
  pacman_conf w = Some text → parse_ini w text = Parsed source →
  assigned source "options" (lower key) = Some (Some value) →
  has_percent value = false →
  ∃ config, read_pacman_config w = mret config ∧
    get w config "options" key = mret (Some value).
Proof.
  intros Hc Hp Ha Hv. exists (cp_update default_config source). split.
  - unfold read_pacman_config. fold default_config. unfold read. by rewrite Hc, Hp.
  - apply get_stored; [|done]. by rewrite stored_cp_update_assigned, Ha.
Qed.

Lemma file_value_overrides_default_witness :
  assigned [("options", [("rootdir", None); ("dbpath", Some "/mnt/db")])]
    "options" (lower "DBPath") = Some (Some "/mnt/db") ∧
  ∃ config, read_pacman_config valueless_system = mret config ∧
    get valueless_system config "options" "DBPath" = mret (Some "/mnt/db").
Proof.
  assert (assigned [("options", [("rootdir", None); ("dbpath", Some "/mnt/db")])]
            "options" (lower "DBPath") = Some (Some "/mnt/db")) as H
    by (vm_compute; reflexivity).
  split; [exact H|].
  exact (file_value_overrides_default valueless_system _ _ "DBPath" "/mnt/db"
           eq_refl eq_refl H eq_refl).
Defined.

(** ** Exceptions of a run *)

Lemma ALPM_init_None (w : world) (root_dir db_path : option string) :
  root_dir = None ∨ db_path = None →
  ALPM_init w root_dir db_path = raise AttributeError.
Proof. unfold ALPM_init. intros [-> | ->]; [done|by destruct root_dir]. Qed.


Lemma bytes_humanize_cases (n : N) :
  (∃ text, bytes_humanize n = mret text) ∨ bytes_humanize n = raise OverflowError.
Proof.
  destruct (finite (first_quotient n)) eqn:Hf.
  - left. eexists. by apply bytes_humanize_finite.
  - right. by apply bytes_humanize_overflow.
Qed.


Lemma per_package_run (w : world) (packages : list Package) (h : bool) :
  installed w = mret packages →
  ∃ texts : list string,
    length texts = length packages ∧ main w h false = (texts, inr tt).
Proof.
  intros Hi. rewrite (main_with w packages h false Hi).
  assert (length (list_sort size packages) = length packages) as Hlen
    by apply Permutation_length, list_sort_perm.
  destruct h.
  - assert (Forall uint64_size (list_sort size packages)) as Hs.
    { eapply Permutation_Forall; [|exact (installed_uint64 w packages Hi)].
      symmetry. apply list_sort_perm. }
    destruct (for_each_human _ Hs) as (texts & Hl & ->).
    eexists. split; [|done]. rewrite length_zip_with. lia.
  - rewrite for_each_raw. eexists. split; [|done]. by rewrite length_map.
Qed.

Lemma total_run (w : world) (packages : list Package) (h : bool) :
  installed w = mret packages →
  (∃ text, main w h true = ([text], inr tt)) ∨
  (h = true ∧ main w h true = raise OverflowError).
Proof.
  intros Hi. rewrite (main_with w packages h true Hi). unfold display.
  destruct h; [|left; eexists; by rewrite bind_ret].
  destruct (bytes_humanize_cases (sum (map size (list_sort size packages))))
    as [[text ->]| ->].
  - left. exists text. by rewrite bind_ret.
  - by right.
Qed.

Lemma main_raises_installed (w : world) (h t : bool) (e : exn) :
  installed w = raise e → main w h t = raise e.
Proof. intros Hi. by rewrite main_segments, Hi. Qed.



(** X6: a run that ends with an exception has printed nothing. *)
Theorem failed_run_prints_nothing (w : world) (human_readable show_total : bool)
    (e : exn) :
  outcome (main w human_readable show_total) = inl e →
  main w human_readable show_total = raise e.
Proof.
  destruct (installed_cases w) as [[e' Hi]|[packages Hi]].
  - rewrite (main_raises_installed w _ _ e' Hi). by intros [= <-].
  - destruct show_total.
    + destruct (total_run w packages human_readable Hi) as [[text ->]|[-> ->]];
        [done|].
      by intros [= <-].
    + by destruct (per_package_run w packages human_readable Hi) as (texts & _ & ->).
Qed.

Lemma failed_run_prints_nothing_witness :
  outcome (main valueless_system true true) = inl AttributeError ∧
  main valueless_system true true = raise AttributeError.
Proof.
  assert (outcome (main valueless_system true true) = inl AttributeError) as H
    by (vm_compute; reflexivity).
  split; [exact H|].
  exact (failed_run_prints_nothing valueless_system true true AttributeError H).
Defined.

(** X7: per-package mode prints exactly one line for each installed
    package and ends normally, with and without the human-readable flag. *)
Theorem per_package_prints_one_line_each (w : world) (human_readable : bool)
    (packages : list Package) :
  installed w = mret packages →
  length (stdout (main w human_readable false)) = length packages ∧
  outcome (main w human_readable false) = inr tt.
Proof.
  intros Hi.
  by destruct (per_package_run w packages human_readable Hi) as (texts & Hl & ->).
Qed.

Lemma per_package_prints_one_line_each_witness :
  installed example_system = mret example_packages ∧
  length (stdout (main example_system true false)) = 4%nat.
Proof.
  assert (installed example_system = mret example_packages) as H
    by (vm_compute; reflexivity).
  split; [exact H|].
  exact (proj1 (per_package_prints_one_line_each example_system true example_packages H)).
Defined.

(** X8: when RootDir or DBPath is read as [None], as for an option that
    the file names without a value, the run ends with AttributeError, from
    [None.encode()], in every mode. *)
Theorem valueless_path_option_raises (w : world) (config : ConfigParser)
    (root_dir db_path : option string) :
  read_pacman_config w = mret config →
  get w config "options" "RootDir" = mret root_dir →
  get w config "options" "DBPath" = mret db_path →
  root_dir = None ∨ db_path = None →
  ∀ human_readable show_total : bool,
    main w human_readable show_total = raise AttributeError.
Proof.
  intros Hc Hr Hd Hn h t. apply main_raises_installed. unfold installed.
  by rewrite Hc, bind_ret, Hr, bind_ret, Hd, bind_ret, (ALPM_init_None w _ _ Hn).
Qed.

Lemma valueless_path_option_raises_witness :
  get valueless_system
    (cp_update default_config [("options", [("rootdir", None);
                                             ("dbpath", Some "/mnt/db")])])
    "options" "RootDir" = mret None ∧
  main valueless_system false false = raise AttributeError.
Proof.
  assert (get valueless_system
            (cp_update default_config [("options", [("rootdir", None);
                                                     ("dbpath", Some "/mnt/db")])])
            "options" "RootDir" = mret None) as Hr by (vm_compute; reflexivity).
  split; [exact Hr|].
  exact (valueless_path_option_raises valueless_system _ None (Some "/mnt/db")
           ltac:(vm_compute; reflexivity) Hr ltac:(vm_compute; reflexivity)
           (or_introl eq_refl) false false).
Defined.

(** X9: the line of total mode depends on the sizes of the packages only,
    not on the order in which libalpm lists them. *)
Theorem total_independent_of_order (w1 w2 : world) (human_readable : bool)
    (packages1 packages2 : list Package) :
  installed w1 = mret packages1 → installed w2 = mret packages2 →
  map size packages1 ≡ₚ map size packages2 →
  main w1 human_readable true = main w2 human_readable true.
Proof.
  intros H1 H2 Hp.
  rewrite (main_with w1 packages1 _ true H1), (main_with w2 packages2 _ true H2).
  by rewrite !sum_sorted, (sum_permutation _ _ Hp).
Qed.

Lemma total_independent_of_order_witness :
  installed example_system = mret example_packages ∧
  installed reordered_system = mret (reverse example_packages) ∧
  main example_system true true = main reordered_system true true.
Proof.
  assert (installed example_system = mret example_packages) as H1
    by (vm_compute; reflexivity).
  assert (installed reordered_system = mret (reverse example_packages)) as H2
    by (vm_compute; reflexivity).
  split; [exact H1|]. split; [exact H2|].
  exact (total_independent_of_order example_system reordered_system true
           example_packages (reverse example_packages) H1 H2
           (Permutation_rev (map size example_packages))).
Defined.

(** X10: a run in total mode that ends normally has printed exactly one
    line. *)
Theorem total_mode_prints_one_line (w : world) (human_readable : bool) :
  outcome (main w human_readable true) = inr tt →
  ∃ line : string, main w human_readable true = ([line], inr tt).
Proof.
  destruct (installed_cases w) as [[e Hi]|[packages Hi]].
  - by rewrite (main_raises_installed w _ _ e Hi).
  - destruct (total_run w packages human_readable Hi) as [[text ->]|[_ ->]]; [|done].
    intros _. by exists text.
Qed.

Lemma total_mode_prints_one_line_witness :
  outcome (main example_system false true) = inr tt ∧
  ∃ line : string, main example_system false true = ([line], inr tt).
Proof.
  assert (outcome (main example_system false true) = inr tt) as H
    by (vm_compute; reflexivity).
  split; [exact H|]. exact (total_mode_prints_one_line example_system false H).
Defined.

(** X11: without a configuration file libalpm is initialized with the
    paths "/" and "/var/lib/pacman", and the packages are those of the
    search for ".*" in the local database of the handle it returns. *)
Theorem default_paths_reach_libalpm (w : world) :
  pacman_conf w = None →
  let handle := alpm_initialize w "/" "/var/lib/pacman" in
  ALPM_init w (Some "/") (Some "/var/lib/pacman")
    = mret {| handle := handle; local_db := alpm_get_localdb w handle |} ∧
  installed w = collect w (alpm_db_search w (alpm_get_localdb w handle) [".*"]) [].
Proof.
  intros Hc handle.
  assert (ALPM_init w (Some "/") (Some "/var/lib/pacman")
          = mret {| handle := handle; local_db := alpm_get_localdb w handle |}) as Ha.
  { unfold ALPM_init, encode. by rewrite !bind_ret. }
  split; [done|].
  destruct default_config_stored as [Hroot Hdb].
  destruct lower_keys as [Lroot Ldb].
  unfold installed, read_pacman_config. fold default_config. unfold read.
  rewrite Hc, bind_ret.
  rewrite (get_stored w default_config "options" "RootDir" "/"), bind_ret;
    [|by rewrite Lroot|by vm_compute].
  rewrite (get_stored w default_config "options" "DBPath" "/var/lib/pacman"), bind_ret;
    [|by rewrite Ldb|by vm_compute].
  by rewrite Ha, bind_ret, search_db_collect.
Qed.

Lemma default_paths_reach_libalpm_witness :
  pacman_conf example_system = None ∧
  installed example_system
  = collect example_system
      (alpm_db_search example_system
         (alpm_get_localdb example_system
            (alpm_initialize example_system "/" "/var/lib/pacman")) [".*"]) [].
Proof.
  split; [reflexivity|].
  exact (proj2 (default_paths_reach_libalpm example_system eq_refl)).
Defined.

Lemma installed_default_chain (w : world) :
  pacman_conf w = None → installed w = collect w (default_chain w) [].
Proof.
  intros Hc.
  destruct default_config_stored as [Hroot Hdb].
  destruct lower_keys as [Lroot Ldb].
  unfold installed, read_pacman_config. fold default_config. unfold read.
  rewrite Hc, bind_ret.
  rewrite (get_stored w default_config "options" "RootDir" "/"), bind_ret;
    [|by rewrite Lroot|by vm_compute].
  rewrite (get_stored w default_config "options" "DBPath" "/var/lib/pacman"), bind_ret;
    [|by rewrite Ldb|by vm_compute].
  unfold ALPM_init, encode. by rewrite !bind_ret, search_db_collect.
Qed.

(** X12: a whole run in per-package mode, without a configuration file and
    with names that decode: one line, name then size, for each package of
    the chain, in ascending order of size. *)
Theorem main_lists_packages_by_size (w : world) :
  pacman_conf w = None → Forall (decodable w) (default_chain w) →
  main w false false
  = (map (λ p, name p +:+ " " +:+ str (size p))
       (list_sort size (map (package_of w) (default_chain w))), inr tt).
Proof.
  intros Hc Hd.
  assert (installed w = mret (map (package_of w) (default_chain w))) as Hi.
  { by rewrite (installed_default_chain w Hc), (collect_decodable w _ [] Hd). }
  by rewrite (main_with w _ false false Hi), for_each_raw.
Qed.

Lemma main_lists_packages_by_size_witness :
  pacman_conf example_system = None ∧
  Forall (decodable example_system) (default_chain example_system) ∧
  main example_system false false
  = (["vim 0"; "bash 1536"; "zlib 1536"; "glibc 50000000"], inr tt).
Proof.
  assert (Forall (decodable example_system) (default_chain example_system)) as H.
  { apply Forall_forall. intros pkg _. reflexivity. }
  split; [reflexivity|]. split; [exact H|].
  exact (main_lists_packages_by_size example_system eq_refl H).
Defined.

(** ** The size of the total *)

Lemma sum_uint64 (packages : list Package) :
  Forall uint64_size packages →
  (sum (map size packages) ≤ N.of_nat (length packages) * (2 ^ 64 - 1))%N.
Proof.
  induction 1 as [|p l Hp Hl IH]; [done|].
  unfold uint64_size in Hp. rewrite map_cons, sum_cons, length_cons. lia.
Qed.

(** X13: with fewer than 2^64 installed packages the total is below 2^128,
    and its humanized text is printed: the OverflowError of the humanizer
    is out of reach. *)
Theorem human_total_of_uint64_sizes (w : world) (packages : list Package) :
  installed w = mret packages →
  (N.of_nat (length packages) < 2 ^ 64)%N →
  (sum (map size packages) < 2 ^ 128)%N ∧
  ∃ text : string, main w true true = ([text], inr tt).
Proof.
  intros Hi Hlen.
  pose proof (sum_uint64 packages (installed_uint64 w packages Hi)) as Hsum.
  assert (sum (map size packages) < 2 ^ 128)%N as Hs by nia.
  split; [done|].
  destruct (total_run w packages true Hi) as [[text Ht]|[_ Hr]]; [by exists text|].
  rewrite (main_with w packages true true Hi), sum_sorted in Hr. unfold display in Hr.
  rewrite (bytes_humanize_finite (sum (map size packages))) in Hr; [done|].
  apply first_quotient_in_range. lia.
Qed.

Lemma human_total_of_uint64_sizes_witness :
  installed example_system = mret example_packages ∧
  (N.of_nat (length example_packages) < 2 ^ 64)%N ∧
  (sum (map size example_packages) < 2 ^ 128)%N.
Proof.
  assert (installed example_system = mret example_packages) as Hi
    by (vm_compute; reflexivity).
  assert (N.of_nat (length example_packages) < 2 ^ 64)%N as Hl
    by (vm_compute; reflexivity).
  split; [exact Hi|]. split; [exact Hl|].
  exact (proj1 (human_total_of_uint64_sizes example_system example_packages Hi Hl)).
Defined.

(** ** The lines of the human-readable mode *)

Lemma for_each_human_lines (packages : list Package) :
  Forall uint64_size packages →
  for_each packages (package_line true)
  = (map (λ p, name p +:+ " " +:+ humanized (size p)) packages, inr tt).
Proof.
  induction 1 as [|p l Hp Hl IH]; [done|].
  destruct (bytes_humanize_uint64 (size p) Hp) as [text Ht].
  assert (humanized (size p) = text) as Hh by (unfold humanized; by rewrite Ht).
  by rewrite for_each_cons, (package_line_human p text Ht), bind_print, IH,
    map_cons, Hh.
Qed.

(** X14: with the human-readable flag, per-package mode prints for each
    package, in ascending order of size, its name, a space and the text
    that [bytes_humanize] returns for its size; the humanizer raises for
    none of them. *)
Theorem per_package_human_lines (w : world) (packages : list Package) :
  installed w = mret packages →
  Forall (λ p, bytes_humanize (size p) = mret (humanized (size p))) packages ∧
  main w true false
  = (map (λ p, name p +:+ " " +:+ humanized (size p)) (list_sort size packages),
     inr tt).
Proof.
  intros Hi. pose proof (installed_uint64 w packages Hi) as Hu. split.
  - eapply Forall_impl; [exact Hu|]. intros p Hp.
    destruct (bytes_humanize_uint64 (size p) Hp) as [text Ht].
    unfold humanized. by rewrite Ht.
  - rewrite (main_with w packages true false Hi). apply for_each_human_lines.
    eapply Permutation_Forall; [|exact Hu]. symmetry. apply list_sort_perm.
Qed.

Lemma per_package_human_lines_witness :
  installed example_system = mret example_packages ∧
  main example_system true false
  = (["vim 0.00B"; "bash 1.50KiB"; "zlib 1.50KiB"; "glibc 47.68MiB"], inr tt).
Proof.
  assert (installed example_system = mret example_packages) as Hi
    by (vm_compute; reflexivity).
  split; [exact Hi|].
  exact (eq_trans
           (proj2 (per_package_human_lines example_system example_packages Hi))
           ltac:(vm_compute; reflexivity)).
Defined.

(** ** The handle of the session *)



(** ** The range of the humanizer *)

Lemma round_half_even_ge_half (x : Q) (z : Z) :
  Z.even z = true → inject_Z z - (1 # 2) <= x → (z ≤ round_half_even x)%Z.
Proof.
  intros Hev Hx.
  destruct (Qlt_le_dec x (inject_Z z)) as [Hlt|Hge]; [|by apply round_half_even_ge].
  assert (inject_Z (z - 1) == inject_Z z - 1) as Hz by (unfold Qeq; simpl; lia).
  assert (Qfloor x = z - 1)%Z as Hf.
  { pose proof (Qfloor_le x) as Hfl.
    assert (inject_Z (z - 1) <= x) as Hl by lra.
    apply Qfloor_resp_le in Hl. rewrite Qfloor_Z in Hl.
    assert (inject_Z (Qfloor x) < inject_Z z) as Hu by lra.
    rewrite <- Zlt_Qlt in Hu. lia. }
  unfold round_half_even. rewrite Hf.
  destruct (Qcompare (x - inject_Z (z - 1)) (1 # 2)) eqn:Hc.
  - replace (z - 1)%Z with (Z.pred z) by lia.
    rewrite Z.even_pred, <- Z.negb_even, Hev. simpl. lia.
  - apply Qlt_alt in Hc. lra.
  - lia.
Qed.

Lemma round_pos_ge_emax (x : Q) :
  pow2 1024 - pow2 970 <= x → pow2 emax <= round_pos x.
Proof.
  intros Hx.
  destruct (Qlt_le_dec x (pow2 1024)) as [Hlt|Hge]; [|by apply round_pos_ge_pow2].
  pose proof (pow2_pos 970) as Hp970.
  pose proof (pow2_pos 971) as Hp971.
  assert (pow2 1023 <= x) as Hlow.
  { assert (pow2 1024 == pow2 1 * pow2 1023) as H2 by (by rewrite <- pow2_add).
    assert (pow2 1 == 2) as H1 by reflexivity.
    pose proof (pow2_le 970 1023 ltac:(lia)). rewrite H2, H1 in Hx. lra. }
  assert (ilog2 x = 1023%Z) as Hil
    by (apply ilog2_unique; [done|by change (1023 + 1)%Z with 1024%Z]).
  unfold round_pos.
  replace (ulp_exp x) with 971%Z by (unfold ulp_exp, prec, emin; lia).
  assert (inject_Z (2 ^ 53) - (1 # 2) <= x / pow2 971) as Hhalf.
  { apply Qle_shift_div_l; [done|].
    assert ((inject_Z (2 ^ 53) - (1 # 2)) * pow2 971 == pow2 1024 - pow2 970) as ->;
      [|done].
    rewrite <- pow2_Z by lia.
    assert (1 # 2 == pow2 (-1)) as -> by reflexivity.
    assert (pow2 1024 == pow2 53 * pow2 971) as -> by (by rewrite <- pow2_add).
    assert (pow2 970 == pow2 (-1) * pow2 971) as -> by (by rewrite <- pow2_add).
    ring. }
  apply round_half_even_ge_half in Hhalf; [|reflexivity].
  assert (pow2 emax == inject_Z (2 ^ 53) * pow2 971) as ->.
  { rewrite <- pow2_Z by lia. by rewrite <- pow2_add. }
  apply Qmult_le_compat_r; [|lra]. by rewrite <- Zle_Qle.
Qed.

Lemma first_quotient_out_of_range (s : N) :
  (2 ^ 1034 - 2 ^ 980 ≤ s)%N → finite (first_quotient s) = false.
Proof.
  intros Hs. unfold first_quotient.
  pose proof (pow2_pos 970) as Hp970.
  assert (pow2 1024 - pow2 970 <= inject_Z (Z.of_N s) / inject_Z 1024) as Hx.
  { apply Qle_shift_div_l; [done|].
    assert ((pow2 1024 - pow2 970) * inject_Z 1024
            == inject_Z (2 ^ 1034 - 2 ^ 980)) as ->.
    { change (inject_Z 1024) with (pow2 10).
      assert ((pow2 1024 - pow2 970) * pow2 10 == pow2 (1024 + 10) - pow2 (970 + 10)) as ->
        by (rewrite !pow2_add; ring).
      rewrite !pow2_Z by lia.
      unfold Zminus. rewrite inject_Z_plus, inject_Z_opp. reflexivity. }
    rewrite <- Zle_Qle. lia. }
  assert (0 < inject_Z (Z.of_N s) / inject_Z 1024) as Hpos.
  { assert (pow2 970 < pow2 1024) by (by apply pow2_lt). lra. }
  rewrite round_of_pos by done. by apply finite_ge, round_pos_ge_emax.
Qed.

(** X16: [bytes_humanize] raises OverflowError exactly for the byte counts
    from 2^1034 - 2^980 on, those whose quotient by 1024 rounds to 2^1024
    or more. *)
Theorem humanize_overflow_threshold (size : N) :
  bytes_humanize size = raise OverflowError ↔ (2 ^ 1034 - 2 ^ 980 ≤ size)%N.
Proof.
  split.
  - intros Hr. destruct (N.lt_ge_cases size (2 ^ 1034 - 2 ^ 980)) as [Hlt|Hge]; [|done].
    by rewrite (bytes_humanize_finite size (first_quotient_in_range size Hlt)) in Hr.
  - intros Hge. by apply bytes_humanize_overflow, first_quotient_out_of_range.
Qed.

(** ** The text of the humanizer *)

Lemma append_assoc (s1 s2 s3 : string) : (s1 +:+ s2) +:+ s3 = s1 +:+ s2 +:+ s3.
Proof.
  induction s1 as [|a s1 IH]; [done|].
  change (String a ((s1 +:+ s2) +:+ s3) = String a (s1 +:+ s2 +:+ s3)).
  by rewrite IH.
Qed.

Lemma pretty_Z_of_N (n : N) : pretty (Z.of_N n) = pretty n.
Proof. by destruct n. Qed.

Lemma two_digits_length (c : Z) :
  (0 ≤ c < 100)%Z → String.length (two_digits c) = 2%nat.
Proof.
  intros Hc. rewrite <- (Z2Nat.id c) by lia.
  assert (Z.to_nat c < 100)%nat as Hn by lia. revert Hn.
  generalize (Z.to_nat c). intros n Hn.
  do 100 (destruct n as [|n]; [by vm_compute|]). lia.
Qed.

(** The two-decimal text of a non-negative value: its hundredths, rounded,
    split into the whole part and two digits. *)
Lemma format_02f_nonneg (x : Q) :
  0 <= x →
  (0 ≤ round_half_even (x * 100))%Z ∧
  format_02f (Fin x)
  = str (Z.to_N (round_half_even (x * 100) / 100)) +:+ "." +:+
    two_digits (round_half_even (x * 100) mod 100).
Proof.
  intros Hx.
  assert (0 ≤ round_half_even (x * 100))%Z as Hh.
  { apply round_half_even_ge. change (inject_Z 0) with 0. nra. }
  split; [done|]. unfold format_02f.
  assert (round_half_even (Qabs x * 100) = round_half_even (x * 100)) as ->.
  { apply round_half_even_proper. by rewrite Qabs_pos. }
  destruct (Qlt_le_dec x 0) as [Hneg|_]; [lra|].
  unfold str. rewrite <- pretty_Z_of_N, Z2N.id; [done|].
  by apply Z.div_pos.
Qed.

Lemma format_02f_int (n : N) :
  format_02f (Fin (inject_Z (Z.of_N n))) = str n +:+ ".00".
Proof.
  destruct (format_02f_nonneg (inject_Z (Z.of_N n))) as [_ ->].
  { rewrite <- (Zle_Qle 0). lia. }
  assert (round_half_even (inject_Z (Z.of_N n) * 100) = (Z.of_N n * 100)%Z) as ->.
  { rewrite <- (round_half_even_Z (Z.of_N n * 100)).
    apply round_half_even_proper. by rewrite inject_Z_mult. }
  by rewrite Z.div_mul, Z.mod_mul, N2Z.id.
Qed.

Lemma scale_exact_stop (prefix : string) (rest : list string) (x : Q) :
  Qle_bool 1 x = false → scale_exact prefix rest x = (x, prefix).
Proof. intros Hb. destruct rest; simpl; by rewrite Hb. Qed.

(** X17: a byte count below 1024 is shown as itself, followed by ".00B". *)
Theorem humanize_below_1024 (size : N) :
  (size < 1024)%N → bytes_humanize size = mret (str size +:+ ".00B").
Proof.
  intros Hs. destruct (first_quotient_small size Hs) as (Hq & _ & Hlt).
  rewrite bytes_humanize_finite.
  - assert (Qle_bool 1 (first_quotient size) = false) as Hb.
    { apply not_true_is_false. rewrite Qle_bool_iff. lra. }
    rewrite (scale_exact_stop _ _ _ Hb). cbn [fst snd].
    rewrite (format_02f_proper _ (inject_Z (Z.of_N size))), format_02f_int.
    + by rewrite append_assoc.
    + rewrite Hq. by field.
  - apply finite_lt; [apply first_quotient_nonneg|].
    apply Qlt_trans with 1; [done|]. change 1 with (pow2 0). by apply pow2_lt.
Qed.

Lemma humanize_below_1024_witness :
  (1023 < 1024)%N ∧ bytes_humanize 1023 = mret "1023.00B".
Proof.
  assert (1023 < 1024)%N as H by (vm_compute; reflexivity).
  split; [exact H|]. exact (humanize_below_1024 1023 H).
Defined.

Lemma mret_inj {A : Type} (a b : A) : (mret a : M A) = mret b → a = b.
Proof. by intros [= ->]. Qed.

(** X18: every text that [bytes_humanize] returns is a natural number, a
    point, exactly two digits and one of the five units; there is no
    sign, no exponent and no "inf". *)
Theorem humanize_text_shape (size : N) (text : string) :
  bytes_humanize size = mret text →
  ∃ (whole : N) (hundredths : Z) (U : string),
    text = (str whole +:+ "." +:+ two_digits hundredths) +:+ U ∧
    (0 ≤ hundredths < 100)%Z ∧
    String.length (two_digits hundredths) = 2%nat ∧
    U ∈ prefixes.
Proof.
  intros Ht. destruct (finite (first_quotient size)) eqn:Hf;
    [|by rewrite (bytes_humanize_overflow size Hf) in Ht].
  rewrite (bytes_humanize_finite size Hf) in Ht. apply mret_inj in Ht. subst text.
  destruct (scale_exact_index ["KiB"; "MiB"; "GiB"; "TiB"] "B" (first_quotient size))
    as (k & _ & HU & Hv & _).
  set (y := fst (scale_exact "B" ["KiB"; "MiB"; "GiB"; "TiB"] (first_quotient size))) in *.
  assert (0 <= y * inject_Z 1024) as Hy.
  { rewrite Hv. pose proof (first_quotient_nonneg size) as Hq.
    assert (0 < inject_Z (1024 ^ Z.of_nat k)) as Hp.
    { rewrite <- (Zlt_Qlt 0). apply Z.pow_pos_nonneg; lia. }
    apply Qmult_le_0_compat; [|done].
    apply Qle_shift_div_l; [done|]. lra. }
  destruct (format_02f_nonneg _ Hy) as [Hh ->].
  set (h := round_half_even (y * inject_Z 1024 * 100)) in *.
  assert (0 ≤ h mod 100 < 100)%Z as Hc by (apply Z.mod_pos_bound; lia).
  eexists _, _, _. split; [done|]. split; [done|].
  split; [by apply two_digits_length|].
  by apply list_elem_of_lookup_2 in HU.
Qed.

Lemma humanize_text_shape_witness :
  bytes_humanize 1536 = mret "1.50KiB" ∧
  ∃ (whole : N) (hundredths : Z) (U : string),
    "1.50KiB" = (str whole +:+ "." +:+ two_digits hundredths) +:+ U ∧
    (0 ≤ hundredths < 100)%Z ∧
    String.length (two_digits hundredths) = 2%nat ∧
    U ∈ prefixes.
Proof.
  assert (bytes_humanize 1536 = mret "1.50KiB") as H by (vm_compute; reflexivity).
  split; [exact H|]. exact (humanize_text_shape 1536 "1.50KiB" H).
Defined.

(** ** Sorting again *)

Lemma list_sort_Sorted {A : Type} (key : A → N) (l : list A) :
  Sorted (key_le key) l → list_sort key l = l.
Proof.
  induction 1 as [|x l Hl IH Hhd]; [done|].
  unfold list_sort in *. simpl. rewrite IH. by apply insert_by_key_hd.
Qed.

(** X19: the sort leaves a list that is in ascending order of size as it
    is, so sorting twice gives what sorting once gives. *)
Theorem sort_fixes_sorted_lists (packages : list Package) :
  (Sorted (key_le size) packages → list_sort size packages = packages) ∧
  list_sort size (list_sort size packages) = list_sort size packages.
Proof.
  split; [apply list_sort_Sorted|]. apply list_sort_Sorted, list_sort_sorted.
Qed.

(** ** Whole numbers of a unit *)

Lemma inject_1024_pow (k : nat) :
  inject_Z (1024 ^ Z.of_nat k) == pow2 (10 * Z.of_nat k).
Proof.
  rewrite pow2_Z by lia. rewrite Z.pow_mul_r by lia.
  by change (2 ^ 10)%Z with 1024%Z.
Qed.

Lemma scaled_whole (n : N) (k j : nat) :
  scaled (n * 1024 ^ N.of_nat k) j
  == inject_Z (Z.of_N n) * pow2 (10 * (Z.of_nat k - Z.of_nat j)).
Proof.
  unfold scaled. rewrite N2Z.inj_mul, N2Z.inj_pow, nat_N_Z.
  change (Z.of_N 1024) with 1024%Z.
  rewrite inject_Z_mult, !inject_1024_pow.
  replace (10 * (Z.of_nat k - Z.of_nat j))%Z
    with (10 * Z.of_nat k - 10 * Z.of_nat j)%Z by lia.
  rewrite pow2_sub. pose proof (pow2_pos (10 * Z.of_nat j)). field. lra.
Qed.

(** X20: [n] times a unit, for [n] from 1 to 1023 and each of the five
    units, is shown as [n], ".00" and that unit. *)
Theorem humanize_whole_units (n : N) (k : nat) (U : string) :
  prefixes !! k = Some U → (1 ≤ n < 1024)%N →
  bytes_humanize (n * 1024 ^ N.of_nat k) = mret (str n +:+ ".00" +:+ U).
Proof.
  intros HU Hn. set (size := (n * 1024 ^ N.of_nat k)%N).
  assert (k < 5)%nat as Hk by (by apply lookup_lt_Some in HU).
  assert (size < 2 ^ 53)%N as Hsize.
  { assert (1024 ^ N.of_nat k ≤ 1024 ^ 4)%N as Hp by (apply N.pow_le_mono_r; lia).
    unfold size. nia. }
  destruct (first_quotient_exact size Hsize) as [Hq Hfin].
  rewrite (bytes_humanize_finite size Hfin).
  destruct (scale_exact_index ["KiB"; "MiB"; "GiB"; "TiB"] "B" (first_quotient size))
    as (k' & Hk' & Hl & Hv & Hj & Hlast).
  assert (∀ j : nat,
            first_quotient size / inject_Z (1024 ^ Z.of_nat j)
            == inject_Z (Z.of_N n) * pow2 (10 * (Z.of_nat k - Z.of_nat j) - 10)) as Hs.
  { intros j. rewrite Hq, scaled_succ. unfold size. rewrite scaled_whole.
    change (inject_Z 1024) with (pow2 10). rewrite pow2_sub.
    pose proof (pow2_pos 10). field. lra. }
  assert (1 <= inject_Z (Z.of_N n)) as Hn1 by (rewrite <- (Zle_Qle 1); lia).
  assert (inject_Z (Z.of_N n) < inject_Z 1024) as Hn2 by (rewrite <- Zlt_Qlt; lia).
  assert (pow2 (-10) * inject_Z 1024 == 1) as Hunit by reflexivity.
  assert (k' = k) as ->.
  { destruct (lt_eq_lt_dec k' k) as [[Hlt|Heq]|Hgt]; [|done|]; exfalso.
    - destruct Hlast as [Hlt1|Hlen]; [|simpl in Hlen; lia].
      rewrite Hv, Hs in Hlt1.
      assert (pow2 0 <= pow2 (10 * (Z.of_nat k - Z.of_nat k') - 10)) as Hp
        by (apply pow2_le; lia).
      change (pow2 0) with 1 in Hp. nra.
    - specialize (Hj k Hgt). rewrite Hs in Hj.
      replace (10 * (Z.of_nat k - Z.of_nat k) - 10)%Z with (-10)%Z in Hj by lia.
      pose proof (pow2_pos (-10)). nra. }
  assert (snd (scale_exact "B" ["KiB"; "MiB"; "GiB"; "TiB"] (first_quotient size)) = U)
    as -> by (unfold prefixes in HU; congruence).
  rewrite (format_02f_proper _ (inject_Z (Z.of_N n))), format_02f_int.
  - by rewrite append_assoc.
  - rewrite Hv, Hs.
    replace (10 * (Z.of_nat k - Z.of_nat k) - 10)%Z with (-10)%Z by lia.
    rewrite <- Qmult_assoc, Hunit. ring.
Qed.

Lemma humanize_whole_units_witness :
  prefixes !! 3%nat = Some "GiB" ∧ (1 ≤ 512 < 1024)%N ∧
  bytes_humanize (512 * 1024 ^ 3) = mret "512.00GiB".
Proof.
  assert (1 ≤ 512 < 1024)%N as H by lia.
  split; [reflexivity|]. split; [exact H|].
  exact (humanize_whole_units 512 3 "GiB" eq_refl H).
Defined.
